(** * TAYA: effective permissions and the management hierarchy

    A shallow embedding of the two services of the TAYA platform that carry
    decision logic:

    - [PermissionService] (role defaults, templates, custom overrides, the
      cached effective document, the dotted capability check), and
    - [HierarchyService] (management edges, reporting chain, reports).

    Modelling conventions.

    - A JavaScript object is the finite map of its own enumerable properties
      ([gmap string value]); [{...a, ...b}] is the right-biased union, written
      [b ∪ a] with stdpp's left-biased [∪].  A property read ([obj[k]],
      [k in obj]) that finds no own property goes on to [Object.prototype].
      [Object.prototype] is state shared by every call: a permission path
      with a segment [__proto__] makes [updateCustomPermission] write there,
      and the members it has added are then inherited by every object.  The
      field [object_prototype] of the state holds those members.
    - A permission document that itself owns a key [__proto__] lies outside
      the model: [merged['__proto__'] = ...] in [mergePermissions] would
      replace the prototype of the merged object instead of adding a
      property.
    - The Supabase client is the generic record store of the design: a table
      holds rows, [.eq] filters by equality ([.eq(column, null)] selects the
      rows whose column is null), [.single()] yields a row only when exactly
      one row matches.  Identifiers are abstract strings.  An insert is
      checked against the foreign keys and the UNIQUE constraints of the
      migration (rows with a null in a constrained column never collide);
      the other writes of the services cannot violate a constraint.  The
      client is taken to pass row level security.
    - An object argument ([context], [data]) is given by what the reads of
      its fields evaluate to.
    - [await] is sequential composition.  A service method is a function from
      the state to an outcome and a state; writes made before a [throw]
      persist, as they do in the database.
    - [new Date()] and the database's [now()] are the explicit argument [now].
*)

From Stdlib Require Import Ascii.
From stdpp Require Import gmap strings list fin_maps pretty.

Local Open Scope string_scope.
Local Set Warnings "-register-all".

(** ** JavaScript values *)

Module Js.

(** JSON values as they come back from a [jsonb] column (arrays are not
    used by the permission documents and are left out). *)
Inductive value : Type :=
| VNull
| VBool (b : bool)
| VNum (n : Z)
| VStr (s : string)
| VObj (fields : gmap string value).

(** The own enumerable properties copied by [{...v}]; [None] stands for
    [undefined].  A string spreads into its indexed characters. *)
Definition spread (v : option value) : gmap string value :=
  match v with
  | Some (VObj m) => m
  | Some (VStr s) =>
      list_to_map (imap (λ i c, (pretty i, VStr (String c EmptyString)))
                        (String.list_ascii_of_string s))
  | _ => ∅
  end.

(** [s.split('.')]: never empty, empty segments are kept. *)
Fixpoint split (s : string) : list string :=
  match s with
  | EmptyString => [""]
  | String c rest =>
      if Ascii.eqb c "."%char then "" :: split rest
      else match split rest with
           | p :: ps => String c p :: ps
           | [] => [String c EmptyString]
           end
  end.

(** What a property read can produce while walking a plain object: a JSON
    value, a built-in method inherited from [Object.prototype], or
    [Object.prototype] itself (through the inherited [__proto__]). *)
Inductive ref : Type :=
| Plain (v : value)
| Builtin
| ObjectPrototype.

(** The function-valued own properties of [Object.prototype]. *)
Definition prototype_methods : list string :=
  [ "constructor"; "hasOwnProperty"; "isPrototypeOf"; "propertyIsEnumerable";
    "toLocaleString"; "toString"; "valueOf";
    "__defineGetter__"; "__defineSetter__"; "__lookupGetter__";
    "__lookupSetter__" ].

(** A member of [Object.prototype] other than [__proto__]: one the program
    has added or overwritten ([proto]), else a built-in method. *)
Definition prototype_member (proto : gmap string value) (part : string)
    : option ref :=
  match proto !! part with
  | Some v => Some (Plain v)
  | None => if bool_decide (part ∈ prototype_methods) then Some Builtin
            else None
  end.

(** [part in current ? Some current[part] : None], for the three kinds of
    [current] whose [typeof] is ['object'] and that are not [null]; [proto]
    holds the members the program has added to [Object.prototype]. *)
Definition get_in (proto : gmap string value) (current : ref) (part : string)
    : option ref :=
  match current with
  | Plain (VObj m) =>
      match m !! part with
      | Some v => Some (Plain v)
      | None =>
          if bool_decide (part = "__proto__") then Some ObjectPrototype
          else prototype_member proto part
      end
  | ObjectPrototype =>
      if bool_decide (part = "__proto__") then Some (Plain VNull)
      else prototype_member proto part
  | _ => None
  end.

(** [{...r}] for what a property read gave: the own enumerable properties.
    The built-in members of [Object.prototype] are not enumerable, also
    after an assignment has overwritten them. *)
Definition spread_ref (proto : gmap string value) (r : option ref)
    : gmap string value :=
  match r with
  | Some (Plain v) => spread (Some v)
  | Some ObjectPrototype =>
      filter (λ kv, kv.1 ∉ prototype_methods) proto
  | _ => ∅
  end.

(** [typeof current === 'object' && current !== null] *)
Definition is_object (current : ref) : bool :=
  match current with
  | Plain (VObj _) | ObjectPrototype => true
  | _ => false
  end.

(** The object a sequence of own-property reads leads to. *)
Fixpoint get_at (d : gmap string value) (path : list string)
    : option (gmap string value) :=
  match path with
  | [] => Some d
  | key :: path =>
      match d !! key with
      | Some (VObj child) => get_at child path
      | _ => None
      end
  end.

(** An update of the object at the end of [path], in place. *)
Fixpoint alter_at (f : gmap string value → gmap string value)
    (path : list string) (d : gmap string value) : gmap string value :=
  match path with
  | [] => f d
  | key :: path =>
      match d !! key with
      | Some (VObj child) => <[key := VObj (alter_at f path child)]> d
      | _ => d
      end
  end.

End Js.

Export Js.

Abbreviation doc := (gmap string value).

(** A leaf [category.action] of a document, when the category is an object
    that owns the action. *)
Definition leaf (d : doc) (category action : string) : option value :=
  match d !! category with
  | Some (VObj m) => m !! action
  | _ => None
  end.

(** Own-property resolution of a path, the reading of a document that the
    capability check is specified against. *)
Fixpoint resolve (v : value) (parts : list string) : option value :=
  match parts with
  | [] => Some v
  | p :: rest =>
      match v with
      | VObj m => match m !! p with
                  | Some v' => resolve v' rest
                  | None => None
                  end
      | _ => None
      end
  end.

(** ** The record store *)

Module Db.

Inductive UserRole : Type :=
| super_admin | org_admin | senior_manager | manager | lead | member.

(** A row of [users]; the primary key [id] is the key of the table. *)
Record UserRow : Type := {
  row_role : UserRole;
  row_organization_id : string;
  row_active : bool;
}.

(** The [User] object a query hands to the services. *)
Record User : Type := {
  id : string;
  role : UserRole;
  organization_id : string;
  active : bool;
}.

Record PermissionTemplate : Type := {
  tpl_organization_id : option string;
  tpl_name : string;
  permissions : doc;
}.

Inductive Source : Type := src_role | src_template | src_custom.

(** A row of [user_permissions]; the primary key [id] is the key of the
    table. *)
Record UserPermission : Type := {
  user_id : string;
  up_organization_id : option string;
  up_team_id : option string;
  source : option Source;
  template_id : option string;
  custom_permissions : option doc;
  effective_permissions : option doc;
  updated_at : nat;
}.

Inductive Scope : Type := team | org_wide.

(** A row of [management_hierarchy], in insertion order in the table. *)
Record ManagementHierarchy : Type := {
  mh_id : nat;
  mh_organization_id : string;
  manager_id : string;
  manages_user_id : string;
  team_id : option string;
  scope : Scope;
  level : nat;
  delegated_permissions : doc;
  mh_active : bool;
  started_at : nat;
  ended_at : option nat;
}.

(** The state the services run in: the tables ([organizations] and [teams]
    by the ids of their rows), and the members the program has added to
    [Object.prototype]. *)
Record Store : Type := {
  organizations : gset string;
  users : gmap string UserRow;
  teams : gset string;
  permission_templates : gmap string PermissionTemplate;
  user_permissions : gmap nat UserPermission;
  management_hierarchy : list ManagementHierarchy;
  object_prototype : doc;
}.

#[global] Instance UserRole_eq_dec : EqDecision UserRole.
Proof. solve_decision. Defined.

#[global] Instance Scope_eq_dec : EqDecision Scope.
Proof. solve_decision. Defined.

(** [.single()]: the row, when the result has exactly one. *)
Definition single {A : Type} (rows : list A) : option A :=
  match rows with
  | [r] => Some r
  | _ => None
  end.

(** An optional argument as the services test it: [undefined] and the empty
    string are both falsy. *)
Definition truthy (o : option string) : option string :=
  match o with
  | Some s => if bool_decide (s = "") then None else Some s
  | None => None
  end.

(** [{ orgId?, teamId? }] *)
Record Context : Type := {
  orgId : option string;
  teamId : option string;
}.

(** [.from('user_permissions').select('*').eq('user_id', userId)], narrowed
    by [organization_id] and [team_id] only for the fields the context
    carries. *)
Definition matches_context (userId : string) (context : Context)
    (r : UserPermission) : bool :=
  bool_decide (user_id r = userId)
  && match truthy (orgId context) with
     | Some o => bool_decide (up_organization_id r = Some o)
     | None => true
     end
  && match truthy (teamId context) with
     | Some t => bool_decide (up_team_id r = Some t)
     | None => true
     end.

Definition select_user_permissions (st : Store) (userId : string)
    (context : Context) : list (nat * UserPermission) :=
  filter (λ kr, matches_context userId context kr.2 = true)
         (map_to_list (user_permissions st)).

(** [.order('updated_at', { ascending: false }).limit(1)]: a row with the
    greatest [updated_at]; among equals the first one met is kept. *)
Fixpoint most_recent (rows : list (nat * UserPermission))
    : option (nat * UserPermission) :=
  match rows with
  | [] => None
  | r :: rest =>
      match most_recent rest with
      | Some r' => if bool_decide (updated_at r.2 < updated_at r'.2)
                   then Some r' else Some r
      | None => Some r
      end
  end.

(** The key the database gives an inserted row. *)
Definition fresh_key {A : Type} (table : gmap nat A) : nat :=
  fresh (dom table).

Definition set_users (f : gmap string UserRow → gmap string UserRow)
    (st : Store) : Store :=
  {| organizations := organizations st;
     users := f (users st);
     teams := teams st;
     permission_templates := permission_templates st;
     user_permissions := user_permissions st;
     management_hierarchy := management_hierarchy st;
     object_prototype := object_prototype st |}.

Definition set_user_permissions
    (f : gmap nat UserPermission → gmap nat UserPermission)
    (st : Store) : Store :=
  {| organizations := organizations st;
     users := users st;
     teams := teams st;
     permission_templates := permission_templates st;
     user_permissions := f (user_permissions st);
     management_hierarchy := management_hierarchy st;
     object_prototype := object_prototype st |}.

Definition set_management_hierarchy
    (f : list ManagementHierarchy → list ManagementHierarchy)
    (st : Store) : Store :=
  {| organizations := organizations st;
     users := users st;
     teams := teams st;
     permission_templates := permission_templates st;
     user_permissions := user_permissions st;
     management_hierarchy := f (management_hierarchy st);
     object_prototype := object_prototype st |}.

Definition set_object_prototype (f : doc → doc) (st : Store) : Store :=
  {| organizations := organizations st;
     users := users st;
     teams := teams st;
     permission_templates := permission_templates st;
     user_permissions := user_permissions st;
     management_hierarchy := management_hierarchy st;
     object_prototype := f (object_prototype st) |}.

(** A nullable foreign key. *)
Definition references (key : option string) (ids : gset string) : bool :=
  match key with
  | Some k => bool_decide (k ∈ ids)
  | None => true
  end.

(** Whether the schema accepts [r] as a new row of [user_permissions]: the
    foreign keys, and UNIQUE(user_id, organization_id, team_id). *)
Definition accepts_user_permission (st : Store) (r : UserPermission) : bool :=
  bool_decide (user_id r ∈ dom (users st))
  && references (up_organization_id r) (organizations st)
  && references (up_team_id r) (teams st)
  && references (template_id r) (dom (permission_templates st))
  && match up_organization_id r, up_team_id r with
     | Some _, Some _ =>
         forallb (λ kr : nat * UserPermission,
                    negb (bool_decide (user_id kr.2 = user_id r)
                          && bool_decide (up_organization_id kr.2
                                          = up_organization_id r)
                          && bool_decide (up_team_id kr.2 = up_team_id r)))
                 (map_to_list (user_permissions st))
     | _, _ => true
     end.

(** Whether the schema accepts [e] as a new row of [management_hierarchy]:
    the foreign keys, and UNIQUE(manager_id, manages_user_id, team_id,
    scope), which also counts the rows that are no longer active. *)
Definition accepts_edge (st : Store) (e : ManagementHierarchy) : bool :=
  bool_decide (mh_organization_id e ∈ organizations st)
  && bool_decide (manager_id e ∈ dom (users st))
  && bool_decide (manages_user_id e ∈ dom (users st))
  && references (team_id e) (teams st)
  && match team_id e with
     | Some _ =>
         forallb (λ e', negb (bool_decide (manager_id e' = manager_id e)
                              && bool_decide (manages_user_id e'
                                              = manages_user_id e)
                              && bool_decide (team_id e' = team_id e)
                              && bool_decide (scope e' = scope e)))
                 (management_hierarchy st)
     | None => true
     end.

End Db.

Export Db.

(** ** Service methods as store transformers *)

Inductive outcome (A : Type) : Type :=
| Returned (a : A)
| Thrown (msg : string).

Arguments Returned {A} a.
Arguments Thrown {A} msg.

Definition Eff (A : Type) : Type := Store → outcome A * Store.

#[global] Instance Eff_ret : MRet Eff := λ A a st, (Returned a, st).

#[global] Instance Eff_bind : MBind Eff := λ A B k m st,
  match m st with
  | (Returned a, st') => k a st'
  | (Thrown msg, st') => (Thrown msg, st')
  end.

Definition throw {A : Type} (msg : string) : Eff A :=
  λ st, (Thrown msg, st).

Definition read {A : Type} (f : Store → A) : Eff A :=
  λ st, (Returned (f st), st).

Definition write (f : Store → Store) : Eff unit :=
  λ st, (Returned (), f st).

(** ** UserService *)

Module UserService.

Definition user_of (userId : string) (r : UserRow) : User :=
  {| id := userId;
     role := row_role r;
     organization_id := row_organization_id r;
     active := row_active r |}.

(** [getUser]: the row with that id, or [null]. *)
Definition getUser (userId : string) (st : Store) : option User :=
  user_of userId <$> users st !! userId.

(** The part of [Partial<User>] that touches stored fields. *)
Record UserUpdate : Type := {
  data_role : option UserRole;
  data_active : option bool;
}.

(** [updateUser] for data without [email]: the row is updated by id and
    read back with [.single()]. *)
Definition updateUser (userId : string) (data : UserUpdate) : Eff User :=
  λ st,
    match users st !! userId with
    | Some r =>
        let r' := {| row_role := default (row_role r) (data_role data);
                     row_organization_id := row_organization_id r;
                     row_active := default (row_active r) (data_active data) |} in
        (Returned (user_of userId r'), set_users <[userId := r']> st)
    | None => (Thrown "Failed to update user", st)
    end.

Definition set_active (b : bool) (r : UserRow) : UserRow :=
  {| row_role := row_role r;
     row_organization_id := row_organization_id r;
     row_active := b |}.

(** [deactivateUser]: [.update({ active: false, .. }).eq('id', userId)]
    without [.single()]: an update that matches no row is not an error. *)
Definition deactivateUser (userId : string) : Eff unit :=
  write (set_users (alter (set_active false) userId)).

Definition activateUser (userId : string) : Eff unit :=
  write (set_users (alter (set_active true) userId)).

End UserService.

(** ** PermissionService *)

Module PermissionService.

(** An object literal whose properties are all booleans. *)
Definition flags (l : list (string * bool)) : value :=
  VObj (list_to_map (prod_map (λ k, k) VBool <$> l)).

Definition admin_permissions : doc :=
  list_to_map
    [ ("tasks", flags [("view_own", true); ("view_team", true); ("create", true);
                       ("edit_own", true); ("edit_team", true);
                       ("delete_own", true); ("approve", true)]);
      ("timesheet", flags [("view_own", true); ("view_team", true);
                           ("edit_own", true); ("approve_team", true)]);
      ("leaves", flags [("view_own", true); ("view_team", true);
                        ("request", true); ("approve_team", true)]);
      ("resources", flags [("view", true); ("book", true); ("allocate", true);
                           ("manage", true)]);
      ("analytics", flags [("view_own", true); ("view_team", true);
                           ("view_org", true)]);
      ("members", flags [("view", true); ("add", true); ("edit", true);
                         ("remove", true)]) ].

Definition senior_manager_permissions : doc :=
  list_to_map
    [ ("tasks", flags [("view_own", true); ("view_team", true); ("create", true);
                       ("edit_own", true); ("edit_team", true);
                       ("delete_own", false); ("approve", true)]);
      ("timesheet", flags [("view_own", true); ("view_team", true);
                           ("edit_own", true); ("approve_team", true)]);
      ("leaves", flags [("view_own", true); ("view_team", true);
                        ("request", true); ("approve_team", true)]);
      ("resources", flags [("view", true); ("book", true); ("allocate", true);
                           ("manage", false)]);
      ("analytics", flags [("view_own", true); ("view_team", true);
                           ("view_org", false)]);
      ("members", flags [("view", true); ("add", true); ("edit", true);
                         ("remove", false)]) ].

Definition manager_permissions : doc :=
  list_to_map
    [ ("tasks", flags [("view_own", true); ("view_team", true); ("create", true);
                       ("edit_own", true); ("edit_team", true);
                       ("delete_own", false); ("approve", true)]);
      ("timesheet", flags [("view_own", true); ("view_team", true);
                           ("edit_own", true); ("approve_team", true)]);
      ("leaves", flags [("view_own", true); ("view_team", true);
                        ("request", true); ("approve_team", true)]);
      ("resources", flags [("view", true); ("book", true); ("allocate", true);
                           ("manage", false)]);
      ("analytics", flags [("view_own", true); ("view_team", true);
                           ("view_org", false)]);
      ("members", flags [("view", true); ("add", false); ("edit", false);
                         ("remove", false)]) ].

Definition lead_permissions : doc :=
  list_to_map
    [ ("tasks", flags [("view_own", true); ("view_team", true); ("create", true);
                       ("edit_own", true); ("edit_team", false);
                       ("delete_own", false); ("approve", false)]);
      ("timesheet", flags [("view_own", true); ("view_team", true);
                           ("edit_own", true); ("approve_team", false)]);
      ("leaves", flags [("view_own", true); ("view_team", true);
                        ("request", true); ("approve_team", false)]);
      ("resources", flags [("view", true); ("book", true); ("allocate", false);
                           ("manage", false)]);
      ("analytics", flags [("view_own", true); ("view_team", false);
                           ("view_org", false)]);
      ("members", flags [("view", true); ("add", false); ("edit", false);
                         ("remove", false)]) ].

Definition member_permissions : doc :=
  list_to_map
    [ ("tasks", flags [("view_own", true); ("view_team", false); ("create", true);
                       ("edit_own", true); ("edit_team", false);
                       ("delete_own", false); ("approve", false)]);
      ("timesheet", flags [("view_own", true); ("view_team", false);
                           ("edit_own", true); ("approve_team", false)]);
      ("leaves", flags [("view_own", true); ("view_team", false);
                        ("request", true); ("approve_team", false)]);
      ("resources", flags [("view", true); ("book", true); ("allocate", false);
                           ("manage", false)]);
      ("analytics", flags [("view_own", true); ("view_team", false);
                           ("view_org", false)]);
      ("members", flags [("view", true); ("add", false); ("edit", false);
                         ("remove", false)]) ].

(** [DEFAULT_ROLE_PERMISSIONS[role]].  The table has an entry for each of
    the six roles, so the [|| DEFAULT_ROLE_PERMISSIONS.member] that follows
    every use in the source never takes its right operand. *)
Definition DEFAULT_ROLE_PERMISSIONS (r : UserRole) : doc :=
  match r with
  | super_admin => admin_permissions
  | org_admin => admin_permissions
  | senior_manager => senior_manager_permissions
  | manager => manager_permissions
  | lead => lead_permissions
  | member => member_permissions
  end.

(** [getTemplate]: the template with that id, or [null]. *)
Definition getTemplate (templateId : string) (st : Store)
    : option PermissionTemplate :=
  permission_templates st !! templateId.

(** [mergePermissions(base, override)]: start from a copy of [base]; for
    each entry [category, perms] of [override] whose value is an object,
    [merged[category] = { ...merged[category], ...perms }].  The read
    [merged[category]] is an ordinary property read: a category that
    [merged] does not own is looked for in [Object.prototype]. *)
Definition mergePermissions (proto base override : doc) : doc :=
  map_fold
    (λ category perms (merged : doc),
       match perms with
       | VObj p =>
           <[category :=
               VObj (p ∪ spread_ref proto
                           (get_in proto (Plain (VObj merged)) category))]>
             merged
       | _ => merged
       end)
    base override.

(** [if (template_id) { template = getTemplate(template_id); if (template)
    effective = mergePermissions(effective, template.permissions) }], the
    step [getEffectivePermissions] and [updateCustomPermission] share. *)
Definition merge_template (effective : doc) (templateId : option string)
    (st : Store) : doc :=
  match truthy templateId with
  | Some tid =>
      match getTemplate tid st with
      | Some template =>
          mergePermissions (object_prototype st) effective
                           (permissions template)
      | None => effective
      end
  | None => effective
  end.

Definition cache_effective (effective : doc) (now : nat)
    (r : UserPermission) : UserPermission :=
  {| user_id := user_id r;
     up_organization_id := up_organization_id r;
     up_team_id := up_team_id r;
     source := source r;
     template_id := template_id r;
     custom_permissions := custom_permissions r;
     effective_permissions := Some effective;
     updated_at := now |}.

Definition getEffectivePermissions (userId : string) (context : Context)
    (now : nat) : Eff doc :=
  user ← read (UserService.getUser userId);
  match user with
  | None => throw "User not found"
  | Some user =>
      let rolePermissions := DEFAULT_ROLE_PERMISSIONS (role user) in
      userPerms ← read (λ st,
        most_recent (select_user_permissions st userId context));
      match userPerms with
      | None => mret rolePermissions
      | Some (key, userPerm) =>
          match effective_permissions userPerm with
          | Some cached => mret cached
          | None =>
              effective ← read (merge_template rolePermissions
                                               (template_id userPerm));
              effective ← read (λ st,
                match custom_permissions userPerm with
                | Some custom =>
                    mergePermissions (object_prototype st) effective custom
                | None => effective
                end);
              _ ← write (set_user_permissions
                           (alter (cache_effective effective now) key));
              mret effective
          end
      end
  end.

(** The loop of [checkPermission] over the path segments, ending in
    [current === true]. *)
Fixpoint walk (proto : doc) (current : ref) (parts : list string) : bool :=
  match parts with
  | [] => match current with
          | Plain (VBool true) => true
          | _ => false
          end
  | part :: rest =>
      if is_object current then
        match get_in proto current part with
        | Some next => walk proto next rest
        | None => false
        end
      else false
  end.

Definition checkPermission (userId permission : string) (context : Context)
    (now : nat) : Eff bool :=
  effective ← getEffectivePermissions userId context now;
  proto ← read object_prototype;
  mret (walk proto (Plain (VObj effective)) (split permission)).

(** Where [current] points in the loop of [updateCustomPermission]: at an
    object inside [customPerms], or at an object inside [Object.prototype];
    the path is the sequence of own keys from the root ([[]] is the root
    itself). *)
Inductive place : Type :=
| InCustom (path : list string)
| InPrototype (path : list string).

Definition child (p : place) (key : string) : place :=
  match p with
  | InCustom path => InCustom (path ++ [key])%list
  | InPrototype path => InPrototype (path ++ [key])%list
  end.

(** The two roots the loop can reach. *)
Record Heap : Type := {
  heap_custom : doc;
  heap_prototype : doc;
}.

(** The own data properties of the object at [p]. *)
Definition own_properties (h : Heap) (p : place) : option doc :=
  match p with
  | InCustom path => get_at (heap_custom h) path
  | InPrototype path => get_at (heap_prototype h) path
  end.

(** [current[key] = v] where the assignment defines or updates an own
    property of the object at [p]. *)
Definition assign (h : Heap) (p : place) (key : string) (v : value) : Heap :=
  match p with
  | InCustom path =>
      {| heap_custom := alter_at <[key := v]> path (heap_custom h);
         heap_prototype := heap_prototype h |}
  | InPrototype path =>
      {| heap_custom := heap_custom h;
         heap_prototype := alter_at <[key := v]> path (heap_prototype h) |}
  end.

(** One iteration of the loop,
    [if (!(part in current) || typeof current[part] !== 'object')
       current[part] = {};
     current = current[part]],
    with [current = None] for [null].  The result is [None] when [current]
    is [null] and [in] throws a [TypeError].  A part that [current] does not
    own is read from [Object.prototype]: [__proto__] gives
    [Object.prototype] itself ([null] when [current] is [Object.prototype]),
    an added member that is an object gives that shared object, and anything
    else (a built-in method, an added member that is not an object,
    nothing) is replaced by an own [{}]. *)
Definition step (h : Heap) (current : option place) (part : string)
    : option (Heap * option place) :=
  p ← current;
  own ← own_properties h p;
  Some
    match own !! part with
    | Some (VObj _) => (h, Some (child p part))
    | Some VNull => (h, None)
    | Some _ => (assign h p part (VObj ∅), Some (child p part))
    | None =>
        if bool_decide (part = "__proto__") then
          match p with
          | InPrototype [] => (h, None)
          | _ => (h, Some (InPrototype []))
          end
        else
          match p with
          | InPrototype [] =>
              (assign h p part (VObj ∅), Some (child p part))
          | _ =>
              match heap_prototype h !! part with
              | Some (VObj _) => (h, Some (InPrototype [part]))
              | Some VNull => (h, None)
              | _ => (assign h p part (VObj ∅), Some (child p part))
              end
          end
    end.

(** [current[last] = value]: [None] for the [TypeError] on [null].  When
    [current] does not own [__proto__], the assignment runs the inherited
    setter, which ignores a boolean. *)
Definition assign_leaf (h : Heap) (current : option place) (last : string)
    (value : bool) : option Heap :=
  p ← current;
  own ← own_properties h p;
  match own !! last with
  | None =>
      if bool_decide (last = "__proto__") then Some h
      else Some (assign h p last (VBool value))
  | Some _ => Some (assign h p last (VBool value))
  end.

(** The loop over [parts] but the last, then the final assignment.  The
    second component is [Object.prototype] as the code leaves it, also when
    it throws. *)
Fixpoint set_path_from (h : Heap) (current : option place)
    (parts : list string) (value : bool) : option Heap * doc :=
  match parts with
  | [] =>
      match assign_leaf h current "undefined" value with
      | Some h' => (Some h', heap_prototype h')
      | None => (None, heap_prototype h)
      end
  | [last] =>
      match assign_leaf h current last value with
      | Some h' => (Some h', heap_prototype h')
      | None => (None, heap_prototype h)
      end
  | part :: rest =>
      match step h current part with
      | Some (h', current') => set_path_from h' current' rest value
      | None => (None, heap_prototype h)
      end
  end.

(** The nested-structure loop of [updateCustomPermission] together with the
    final [current[parts[parts.length - 1]] = value], started at
    [customPerms]: the resulting [customPerms] ([None] for a [TypeError]),
    and the resulting [Object.prototype]. *)
Definition set_path (customPerms proto : doc) (parts : list string)
    (value : bool) : option doc * doc :=
  let result :=
    set_path_from {| heap_custom := customPerms; heap_prototype := proto |}
                  (Some (InCustom [])) parts value in
  (heap_custom <$> result.1, result.2).

(** [updateCustomPermission].  The result of the final [insert] is not
    looked at: a row the schema rejects is silently not written. *)
Definition updateCustomPermission (userId permission : string) (value : bool)
    (context : Context) (now : nat) : Eff unit :=
  existing ← read (λ st, single (select_user_permissions st userId context));
  let parts := split permission in
  let customPerms :=
    default ∅ (existing ≫= λ kr, custom_permissions kr.2) in
  proto ← read object_prototype;
  let written := set_path customPerms proto parts value in
  _ ← write (set_object_prototype (λ _, written.2));
  match written.1 with
  | None => throw "TypeError"
  | Some customPerms =>
      user ← read (UserService.getUser userId);
      match user with
      | None => throw "User not found"
      | Some user =>
          let rolePermissions := DEFAULT_ROLE_PERMISSIONS (role user) in
          effective ← read (merge_template rolePermissions
                              (existing ≫= λ kr, template_id kr.2));
          effective ← read (λ st,
            mergePermissions (object_prototype st) effective customPerms);
          match existing with
          | Some (key, _) =>
              write (set_user_permissions (alter (λ r,
                {| user_id := user_id r;
                   up_organization_id := up_organization_id r;
                   up_team_id := up_team_id r;
                   source := Some src_custom;
                   template_id := template_id r;
                   custom_permissions := Some customPerms;
                   effective_permissions := Some effective;
                   updated_at := now |}) key))
          | None =>
              let data :=
                {| user_id := userId;
                   up_organization_id := truthy (orgId context);
                   up_team_id := truthy (teamId context);
                   source := Some src_custom;
                   template_id := None;
                   custom_permissions := Some customPerms;
                   effective_permissions := Some effective;
                   updated_at := now |} in
              write (λ st,
                if accepts_user_permission st data
                then set_user_permissions
                       (λ table, <[fresh_key table := data]> table) st
                else st)
          end
      end
  end.

Definition grantPermission (userId permission : string) (context : Context)
    (now : nat) : Eff unit :=
  updateCustomPermission userId permission true context now.

Definition revokePermission (userId permission : string) (context : Context)
    (now : nat) : Eff unit :=
  updateCustomPermission userId permission false context now.

(** The [.update({ template_id, source: 'template', effective_permissions,
    updated_at })] of [applyTemplate] on an existing row. *)
Definition apply_template_to (templateId : string) (effective : doc)
    (now : nat) (r : UserPermission) : UserPermission :=
  {| user_id := user_id r;
     up_organization_id := up_organization_id r;
     up_team_id := up_team_id r;
     source := Some src_template;
     template_id := Some templateId;
     custom_permissions := custom_permissions r;
     effective_permissions := Some effective;
     updated_at := now |}.

Definition applyTemplate (userId templateId : string) (context : Context)
    (now : nat) : Eff (nat * UserPermission) :=
  template ← read (getTemplate templateId);
  match template with
  | None => throw "Template not found"
  | Some template =>
      existing ← read (λ st,
        single (select_user_permissions st userId context));
      user ← read (UserService.getUser userId);
      match user with
      | None => throw "User not found"
      | Some user =>
          let rolePermissions := DEFAULT_ROLE_PERMISSIONS (role user) in
          effective ← read (λ st,
            mergePermissions (object_prototype st) rolePermissions
                             (permissions template));
          match existing with
          | Some (key, r) =>
              let update := apply_template_to templateId effective now in
              _ ← write (set_user_permissions (alter update key));
              mret (key, update r)
          | None =>
              key ← read (λ st, fresh_key (user_permissions st));
              let data :=
                {| user_id := userId;
                   up_organization_id := truthy (orgId context);
                   up_team_id := truthy (teamId context);
                   source := Some src_template;
                   template_id := Some templateId;
                   custom_permissions := None;
                   effective_permissions := Some effective;
                   updated_at := now |} in
              accepted ← read (λ st, accepts_user_permission st data);
              if accepted : bool then
                _ ← write (set_user_permissions <[key := data]>);
                mret (key, data)
              else throw "Failed to apply template"
          end
      end
  end.

End PermissionService.

(** ** HierarchyService *)

Module HierarchyService.

(** [.eq('manager_id', ..).eq('manages_user_id', ..).eq('team_id', teamId ||
    null).eq('scope', ..).eq('active', true)] *)
Definition same_relationship (managerId managesUserId : string)
    (teamId : option string) (sc : Scope) (e : ManagementHierarchy) : bool :=
  bool_decide (manager_id e = managerId)
  && bool_decide (manages_user_id e = managesUserId)
  && bool_decide (team_id e = truthy teamId)
  && bool_decide (scope e = sc)
  && mh_active e.

(** [.eq('manager_id', ..).eq('manages_user_id', ..).eq('active', true)] *)
Definition direct_edge (managerId managesUserId : string)
    (e : ManagementHierarchy) : bool :=
  bool_decide (manager_id e = managerId)
  && bool_decide (manages_user_id e = managesUserId)
  && mh_active e.

(** [.order('level', { ascending: true }).limit(1)]: a row of least level,
    the earliest in the table among equals. *)
Fixpoint least_level (rows : list ManagementHierarchy)
    : option ManagementHierarchy :=
  match rows with
  | [] => None
  | e :: rest =>
      match least_level rest with
      | Some e' => if bool_decide (level e' < level e) then Some e' else Some e
      | None => Some e
      end
  end.

(** The query in the loop of [getManagementChain]: the active edge of least
    level into [userId], joined with the manager's user row. *)
Definition direct_manager (st : Store) (userId : string) : option User :=
  e ← least_level
        (filter (λ e, bool_decide (manages_user_id e = userId) && mh_active e = true)
                (management_hierarchy st));
  UserService.getUser (manager_id e) st.

(** The [while] loop of [getManagementChain]; every iteration that does not
    leave the loop pushes a user that is not yet in [chain], so
    [S (size (users st))] iterations are never used up. *)
Fixpoint chain_loop (fuel : nat) (st : Store) (chain : list User)
    (visited : gset string) (currentUserId : string) : list User :=
  match fuel with
  | 0 => chain
  | S fuel =>
      if bool_decide (currentUserId = "") || bool_decide (currentUserId ∈ visited)
      then chain
      else
        match direct_manager st currentUserId with
        | Some mgr =>
            if active mgr
               && negb (existsb (λ u, bool_decide (id u = id mgr)) chain)
            then chain_loop fuel st (chain ++ [mgr])%list
                            ({[currentUserId]} ∪ visited) (id mgr)
            else chain
        | None => chain
        end
  end.

Definition getManagementChain (userId : string) (st : Store) : list User :=
  chain_loop (S (size (users st))) st [] ∅ userId.

(** [chain.findIndex((u) => u.id === managerId)], [None] for [-1]. *)
Fixpoint findIndex (managerId : string) (chain : list User) : option nat :=
  match chain with
  | [] => None
  | u :: rest =>
      if bool_decide (id u = managerId) then Some 0
      else S <$> findIndex managerId rest
  end.

Definition calculateManagementLevel (managerId managesUserId : string)
    (st : Store) : nat :=
  match single (filter (λ e, direct_edge managerId managesUserId e = true)
                       (management_hierarchy st)) with
  | Some _ => 1
  | None =>
      match findIndex managerId (getManagementChain managesUserId st) with
      | Some managerIndex => managerIndex + 1
      | None => 1
      end
  end.

Definition assignManager (managerId managesUserId : string)
    (teamId : option string) (sc : Scope) (delegatedPermissions : option doc)
    (now : nat) : Eff ManagementHierarchy :=
  if bool_decide (managerId = managesUserId)
  then throw "User cannot manage themselves"
  else
    mgr ← read (UserService.getUser managerId);
    managedUser ← read (UserService.getUser managesUserId);
    match mgr, managedUser with
    | Some mgr, Some managedUser =>
        if bool_decide (organization_id mgr ≠ organization_id managedUser)
        then throw "Manager and user must be in the same organization"
        else
          existing ← read (λ st,
            single (filter (λ e, same_relationship managerId managesUserId
                                   teamId sc e = true)
                           (management_hierarchy st)));
          match existing with
          | Some _ => throw "Management relationship already exists"
          | None =>
              lvl ← read (calculateManagementLevel managerId managesUserId);
              key ← read (λ st,
                S (max_list (mh_id <$> management_hierarchy st)));
              let data :=
                {| mh_id := key;
                   mh_organization_id := organization_id mgr;
                   manager_id := managerId;
                   manages_user_id := managesUserId;
                   team_id := truthy teamId;
                   scope := sc;
                   level := lvl;
                   delegated_permissions := default ∅ delegatedPermissions;
                   mh_active := true;
                   started_at := now;
                   ended_at := None |} in
              accepted ← read (λ st, accepts_edge st data);
              if accepted : bool then
                _ ← write (set_management_hierarchy
                             (λ rows, (rows ++ [data])%list));
                mret data
              else throw "Failed to assign manager"
          end
    | _, _ => throw "Manager or managed user not found"
    end.

(** [removeManager]: every active row of the pair in that team is closed. *)
Definition removeManager (managerId managesUserId : string)
    (teamId : option string) (now : nat) : Eff unit :=
  write (set_management_hierarchy (fmap (λ e,
    if bool_decide (manager_id e = managerId)
       && bool_decide (manages_user_id e = managesUserId)
       && bool_decide (team_id e = truthy teamId)
       && mh_active e
    then {| mh_id := mh_id e;
            mh_organization_id := mh_organization_id e;
            manager_id := manager_id e;
            manages_user_id := manages_user_id e;
            team_id := team_id e;
            scope := scope e;
            level := level e;
            delegated_permissions := delegated_permissions e;
            mh_active := false;
            started_at := started_at e;
            ended_at := Some now |}
    else e))).

(** [getDirectReports]: the active level-1 rows of the manager, in the
    optional team, joined with the managed users; rows whose user is missing
    or inactive are dropped. *)
Definition getDirectReports (managerId : string) (teamId : option string)
    (st : Store) : list User :=
  let data :=
    filter (λ e, bool_decide (manager_id e = managerId)
                 && mh_active e
                 && bool_decide (level e = 1)
                 && match truthy teamId with
                    | Some t => bool_decide (team_id e = Some t)
                    | None => true
                    end = true)
           (management_hierarchy st) in
  filter (λ u, active u = true)
         (omap (λ e, UserService.getUser (manages_user_id e) st) data).

(** The inner loop of [getAllReports] over the reports of one direct
    report: a user is pushed when its id is not yet in the set. *)
Definition add_indirect (acc : gset string * list User) (indirect : User)
    : gset string * list User :=
  if bool_decide (id indirect ∈ acc.1) then acc
  else ({[id indirect]} ∪ acc.1, (acc.2 ++ [indirect])%list).

(** The body of the [for] loop of [getAllReports] over the direct reports:
    the reports of [report] are awaited from [recurse], then filtered into
    the result. *)
Definition visit (recurse : string → option (list User))
    (acc : option (gset string * list User)) (report : User)
    : option (gset string * list User) :=
  acc ← acc;
  indirectReports ← recurse (id report);
  Some (foldl add_indirect acc indirectReports).

(** [getAllReports], with the depth of the recursion bounded by [fuel]:
    [None] means that a call at depth [fuel] was still pending.  The set
    [allReports] and the list [reportUsers] are local to each call. *)
Fixpoint getAllReports (fuel : nat) (managerId : string) (st : Store)
    : option (list User) :=
  match fuel with
  | 0 => None
  | S fuel =>
      let directReports := getDirectReports managerId None st in
      let allReports : gset string := list_to_set (id <$> directReports) in
      snd <$>
        foldl (visit (λ userId, getAllReports fuel userId st))
              (Some (allReports, directReports)) directReports
  end.

(** [canManage], on the result of [getAllReports]. *)
Definition canManage (fuel : nat) (managerId userId : string) (st : Store)
    : option bool :=
  if bool_decide (filter (λ e, direct_edge managerId userId e = true)
                         (management_hierarchy st) ≠ [])
  then Some true
  else
    allReports ← getAllReports fuel managerId st;
    Some (existsb (λ u, bool_decide (id u = userId)) allReports).

End HierarchyService.

(** ** The management graph *)

(** An active row of any level from [m] to [u]: what [getManagementChain]
    follows upwards. *)
Definition active_edge (st : Store) (m u : string) : Prop :=
  ∃ e, e ∈ management_hierarchy st
       ∧ manager_id e = m ∧ manages_user_id e = u ∧ mh_active e = true.

(** An active level-1 row from [m] to [u]: [m] manages [u] directly. *)
Definition manages (st : Store) (m u : string) : Prop :=
  ∃ e, e ∈ management_hierarchy st
       ∧ manager_id e = m ∧ manages_user_id e = u
       ∧ mh_active e = true ∧ level e = 1.

Definition transitively_manages (st : Store) : relation string :=
  tc (manages st).

(** No user is above themselves through active rows. *)
Definition acyclic (st : Store) : Prop :=
  ∀ x, ¬ tc (active_edge st) x x.

Definition no_self_loop (st : Store) : Prop :=
  ∀ e, e ∈ management_hierarchy st → manager_id e ≠ manages_user_id e.

(** [y] is the id of a direct report of [x], as [getDirectReports] without
    a team lists them. *)
Definition reports_to (st : Store) (x y : string) : Prop :=
  y ∈ id <$> HierarchyService.getDirectReports x None st.

(** What the loops of [getAllReports] maintain: the set holds the ids of
    the users in the list. *)
Definition in_step (acc : gset string * list User) : Prop :=
  ∀ y, y ∈ acc.1 ↔ y ∈ id <$> acc.2.

(** ** Concrete stores used by the examples below *)

Module Scenario.

Import UserService PermissionService HierarchyService.

Definition user_row (r : UserRole) : UserRow :=
  {| row_role := r; row_organization_id := "org1"; row_active := true |}.

Definition in_org1 : Context := {| orgId := Some "org1"; teamId := None |}.

Definition in_team (t : string) : Context :=
  {| orgId := Some "org1"; teamId := Some t |}.

(** The store an operation leaves behind. *)
Definition after {A : Type} (operation : Eff A) (st : Store) : Store :=
  (operation st).2.

(** One manager, no permission rows. *)
Definition only_a_manager : Store :=
  {| organizations := {[ "org1" ]};
     users := {[ "m1" := user_row manager ]};
     teams := ∅;
     permission_templates := ∅;
     user_permissions := ∅;
     management_hierarchy := [];
     object_prototype := ∅ |}.

(** One member and the template [{ resources: { manage: true } }]. *)
Definition resource_template : PermissionTemplate :=
  {| tpl_organization_id := None;
     tpl_name := "resource manager";
     permissions := {[ "resources" := flags [("manage", true)] ]} |}.

Definition member_with_template : Store :=
  {| organizations := {[ "org1" ]};
     users := {[ "u1" := user_row member ]};
     teams := {[ "team-a"; "team-b" ]};
     permission_templates := {[ "t1" := resource_template ]};
     user_permissions := ∅;
     management_hierarchy := [];
     object_prototype := ∅ |}.

(** The member has revoked [resources.manage] for themselves in [org1]
    before any template is applied. *)
Definition member_with_override : Store :=
  after (revokePermission "u1" "resources.manage" in_org1 1)
        member_with_template.

Definition member_revoked : Store :=
  after (revokePermission "u1" "tasks.create" in_org1 1) member_with_template.

(** After that revoke, the template, which grants [resources.manage], is
    applied in the same context. *)
Definition template_applied : Store :=
  after (applyTemplate "u1" "t1" in_org1 2) member_with_override.

(** [tasks.create] is revoked for the member in team [team-a] of [org1];
    the member has no other assignment. *)
Definition team_revoked : Store :=
  after (revokePermission "u1" "tasks.create" (in_team "team-a") 1)
        member_with_template.

(** An assignment of the member that carries the template and a custom
    override of the same leaf, with no cached effective document. *)
Definition uncached_assignment : UserPermission :=
  {| user_id := "u1";
     up_organization_id := Some "org1";
     up_team_id := None;
     source := Some src_custom;
     template_id := Some "t1";
     custom_permissions := Some {[ "resources" := flags [("manage", false)] ]};
     effective_permissions := None;
     updated_at := 1 |}.

Definition member_uncached : Store :=
  set_user_permissions (λ _, {[ 0 := uncached_assignment ]})
                       member_with_template.

(** The member is granted [resources.allocate] in [org1]: this writes the
    cached effective document.  Afterwards the user is promoted to manager
    through [UserService.updateUser]. *)
Definition member_granted : Store :=
  after (grantPermission "u1" "resources.allocate" in_org1 1)
        member_with_template.

Definition promoted : Store :=
  after (updateUser "u1" {| data_role := Some manager; data_active := None |})
        member_granted.

(** The same table with every cached effective document cleared. *)
Definition without_cache (st : Store) : Store :=
  set_user_permissions (fmap (λ r,
    {| user_id := user_id r;
       up_organization_id := up_organization_id r;
       up_team_id := up_team_id r;
       source := source r;
       template_id := template_id r;
       custom_permissions := custom_permissions r;
       effective_permissions := None;
       updated_at := updated_at r |})) st.

(** The member holds one assignment in each of two teams of [org1]; then
    [tasks.create] is revoked, and later [leaves.request] granted, for the
    organisation as a whole. *)
Definition one_team_row : Store :=
  after (grantPermission "u1" "leaves.request" (in_team "team-a") 1)
        member_with_template.

Definition two_team_rows : Store :=
  after (grantPermission "u1" "leaves.request" (in_team "team-b") 2)
        one_team_row.

Definition revoked : Store :=
  after (revokePermission "u1" "tasks.create" in_org1 3) two_team_rows.

Definition regranted : Store :=
  after (grantPermission "u1" "leaves.request" in_org1 5) revoked.

(** Four members of one organisation and no edges. *)
Definition four_users : Store :=
  {| organizations := {[ "org1" ]};
     users := {[ "A" := user_row member; "B" := user_row member;
                 "C" := user_row member; "D" := user_row member ]};
     teams := {[ "T1"; "T2" ]};
     permission_templates := ∅;
     user_permissions := ∅;
     management_hierarchy := [];
     object_prototype := ∅ |}.

(** A is granted the path [__proto__.unknown.path]. *)
Definition polluted : Store :=
  after (grantPermission "A" "__proto__.unknown.path" in_org1 1) four_users.

(** A manages B, B manages C. *)
Definition chain_AB_BC : Store :=
  after (assignManager "B" "C" None team None 2)
        (after (assignManager "A" "B" None team None 1) four_users).

(** A manages B, then B is made the manager of A. *)
Definition two_cycle : Store :=
  after (assignManager "B" "A" None team None 2)
        (after (assignManager "A" "B" None team None 1) four_users).

(** A manages B in two teams. *)
Definition two_teams : Store :=
  after (assignManager "A" "B" (Some "T2") team None 2)
        (after (assignManager "A" "B" (Some "T1") team None 1) four_users).

(** C managed A in team T1, and does no longer. *)
Definition removed_T1 : Store :=
  after (removeManager "C" "A" (Some "T1") 2)
        (after (assignManager "C" "A" (Some "T1") team None 1) four_users).

(** The direct edge from [m] to [u] as [assignManager] stores it. *)
Definition direct (m u : string) : ManagementHierarchy :=
  {| mh_id := 0;
     mh_organization_id := "org1";
     manager_id := m;
     manages_user_id := u;
     team_id := None;
     scope := team;
     level := 1;
     delegated_permissions := ∅;
     mh_active := true;
     started_at := 0;
     ended_at := None |}.

(** A ranking of the four users: A above B above C above D. *)
Definition seniority (u : string) : nat :=
  if bool_decide (u = "A") then 4
  else if bool_decide (u = "B") then 3
  else if bool_decide (u = "C") then 2
  else 1.

Definition with_edges (rows : list ManagementHierarchy) : Store :=
  set_management_hierarchy (λ _, rows) four_users.

End Scenario.
(** * Properties *)

Import UserService PermissionService HierarchyService.

(** Unfolds the sequencing of a service method applied to a store. *)
Ltac run_eff :=
  unfold mbind, Eff_bind, mret, Eff_ret, read, write, throw; simpl.

Lemma forallb_elem {A : Type} (p : A → bool) (l : list A) :
  forallb p l = true → ∀ x, x ∈ l → p x = true.
Proof.
  intros Hall x Hin%list_elem_of_In. revert x Hin. by apply forallb_forall.
Qed.

(** ** Property reads *)

(** A read of a property the object owns does not reach
    [Object.prototype]. *)
Lemma get_in_own (proto m : doc) (part : string) (v : value) :
  m !! part = Some v → get_in proto (Plain (VObj m)) part = Some (Plain v).
Proof. intros Hv. simpl. by rewrite Hv. Qed.

Lemma get_in_ext (proto m m' : doc) (part : string) :
  m !! part = m' !! part →
  get_in proto (Plain (VObj m)) part = get_in proto (Plain (VObj m')) part.
Proof. intros Heq. simpl. by rewrite Heq. Qed.

(** ** Merging *)

(** What [mergePermissions] leaves under each category: the order in which
    the entries of [override] are visited does not matter. *)
Lemma mergePermissions_lookup (proto base override : doc) (category : string) :
  mergePermissions proto base override !! category =
    match override !! category with
    | Some (VObj perms) =>
        Some (VObj (perms ∪ spread_ref proto
                              (get_in proto (Plain (VObj base)) category)))
    | _ => base !! category
    end.
Proof.
  unfold mergePermissions. revert category.
  apply (map_fold_weak_ind (λ (merged : doc) (seen : doc), ∀ category,
    merged !! category =
      match seen !! category with
      | Some (VObj perms) =>
          Some (VObj (perms ∪ spread_ref proto
                                (get_in proto (Plain (VObj base)) category)))
      | _ => base !! category
      end)).
  - intros category. by rewrite lookup_empty.
  - intros c perms seen merged Hfresh IH category.
    destruct (decide (c = category)) as [->|Hne].
    + rewrite lookup_insert_eq.
      destruct perms; rewrite ?lookup_insert_eq; try (by rewrite IH, Hfresh).
      do 4 f_equal. apply get_in_ext. by rewrite IH, Hfresh.
    + rewrite (lookup_insert_ne seen) by done.
      destruct perms; rewrite ?lookup_insert_ne by done; apply IH.
Qed.

Lemma leaf_merge_override (proto base override : doc)
    (category action : string) (v : value) :
  leaf override category action = Some v →
  leaf (mergePermissions proto base override) category action = Some v.
Proof.
  unfold leaf. rewrite mergePermissions_lookup.
  destruct (override !! category) as [[| | | |perms]|]; try done.
  intros Hv. by apply lookup_union_Some_l.
Qed.

Lemma leaf_merge_base (proto base override : doc) (category action : string)
    (v : value) :
  leaf override category action = None →
  leaf base category action = Some v →
  leaf (mergePermissions proto base override) category action = Some v.
Proof.
  unfold leaf. rewrite mergePermissions_lookup.
  destruct (override !! category) as [[| | | |perms]|]; try done.
  intros Hnone Hv.
  destruct (base !! category) as [[| | | |actions]|] eqn:Hbase; try done.
  erewrite get_in_own by done. simpl. by rewrite lookup_union_r.
Qed.

(** Merging an empty override changes nothing. *)
Lemma mergePermissions_empty (proto base : doc) :
  mergePermissions proto base ∅ = base.
Proof. apply map_eq. intros c. by rewrite mergePermissions_lookup, lookup_empty. Qed.

(** X1. Merge is idempotent in its override: merging the same override a
    second time gives the document the first merge gave, for every base,
    every override and whatever has been added to [Object.prototype]. *)
Lemma mergePermissions_idem (proto base override : doc) :
  mergePermissions proto (mergePermissions proto base override) override
  = mergePermissions proto base override.
Proof.
  apply map_eq. intros c. rewrite mergePermissions_lookup.
  destruct (override !! c) as [[| | | |perms]|] eqn:Hc; try done.
  erewrite (get_in_own _ (mergePermissions proto base override))
    by (by rewrite mergePermissions_lookup, Hc).
  rewrite mergePermissions_lookup, Hc.
  simpl. f_equal. f_equal. apply map_eq. intros a.
  rewrite !lookup_union. destruct (perms !! a); by destruct (_ !! a).
Qed.

(** C8. Every category of the base document is still a category of the
    merged document, whatever the override and whatever [Object.prototype]
    holds: a category that was an object is still an object and owns every
    action it owned. *)
Theorem mergePermissions_keeps_categories (proto base override : doc)
    (category : string) (v : value) :
  base !! category = Some v →
  ∃ v', mergePermissions proto base override !! category = Some v' ∧
        ∀ actions, v = VObj actions →
                   ∃ actions', v' = VObj actions' ∧ dom actions ⊆ dom actions'.
Proof.
  intros Hbase. rewrite mergePermissions_lookup.
  erewrite get_in_own by done. rewrite Hbase.
  destruct (override !! category) as [[| | | |perms]|];
    try (exists v; split; [done|]; intros actions ->; by exists actions).
  eexists. split; [done|]. intros actions ->. eexists. split; [done|].
  simpl. rewrite dom_union. set_solver.
Qed.

Lemma mergePermissions_keeps_categories_witness :
  ∃ v', mergePermissions ∅ member_permissions
          {[ "resources" := flags [("manage", true)] ]} !! "resources"
        = Some v' ∧
        ∀ actions, flags [("view", true); ("book", true); ("allocate", false);
                          ("manage", false)] = VObj actions →
                   ∃ actions', v' = VObj actions' ∧ dom actions ⊆ dom actions'.
Proof.
  apply (mergePermissions_keeps_categories ∅ member_permissions
           {[ "resources" := flags [("manage", true)] ]} "resources").
  vm_compute. reflexivity.
Defined.

(** ** Effective permissions *)

Lemma filter_none {A : Type} (P : A → Prop) `{!∀ x, Decision (P x)}
    (l : list A) :
  (∀ x, x ∈ l → ¬ P x) → filter P l = [].
Proof.
  intros Hno. destruct (filter P l) as [|x rest] eqn:Hfilter; [done|].
  assert (x ∈ filter P l) as [HP Hin]%list_elem_of_filter
    by (rewrite Hfilter; left).
  by destruct (Hno x Hin).
Qed.

Lemma select_user_permissions_none (st : Store) (userId : string)
    (context : Context) :
  (∀ key r, user_permissions st !! key = Some r →
            matches_context userId context r = false) →
  select_user_permissions st userId context = [].
Proof.
  intros Hno. apply filter_none. intros [key r] Hin%elem_of_map_to_list.
  simpl. rewrite (Hno key r Hin). done.
Qed.

Lemma most_recent_elem (rows : list (nat * UserPermission))
    (kr : nat * UserPermission) :
  most_recent rows = Some kr → kr ∈ rows.
Proof.
  revert kr. induction rows as [|r rest IH]; intros kr; [done|].
  simpl. destruct (most_recent rest) as [r'|].
  - case_bool_decide; intros [= <-]; [right; by apply IH | left].
  - intros [= <-]. left.
Qed.

Lemma selected_lookup (st : Store) (userId : string) (context : Context)
    (key : nat) (r : UserPermission) :
  (key, r) ∈ select_user_permissions st userId context →
  user_permissions st !! key = Some r ∧ matches_context userId context r = true.
Proof.
  unfold select_user_permissions.
  intros [Hmatch Hin%elem_of_map_to_list]%list_elem_of_filter. done.
Qed.

Lemma single_elem {A : Type} (rows : list A) (r : A) :
  single rows = Some r → rows = [r].
Proof. destruct rows as [|r1 [|r2 rest]]; naive_solver. Qed.

(** [getEffectivePermissions] throws for an unknown user only. *)
Lemma getEffectivePermissions_returns (st : Store) (userId : string)
    (context : Context) (now : nat) (user : User) :
  getUser userId st = Some user →
  ∃ effective st',
    getEffectivePermissions userId context now st = (Returned effective, st').
Proof.
  intros Huser. unfold getEffectivePermissions. run_eff. rewrite Huser.
  destruct (most_recent _) as [[key userPerm]|]; [|by eauto].
  destruct (effective_permissions userPerm); by eauto.
Qed.

(** X2. When no row passes the lookup of [getEffectivePermissions] (the
    user, and the organisation and the team only where the context names
    them), the role-default document of the user's role is returned as it
    is, and nothing is written. *)
Lemma getEffectivePermissions_role_default (st : Store) (userId : string)
    (context : Context) (now : nat) (user : User) :
  getUser userId st = Some user →
  (∀ key r, user_permissions st !! key = Some r →
            matches_context userId context r = false) →
  getEffectivePermissions userId context now st
  = (Returned (DEFAULT_ROLE_PERMISSIONS (role user)), st).
Proof.
  intros Huser Hno. unfold getEffectivePermissions. run_eff. rewrite Huser.
  by rewrite select_user_permissions_none.
Qed.

Lemma getEffectivePermissions_role_default_witness :
  List.length (map_to_list (user_permissions Scenario.team_revoked)) = 1
  ∧ getEffectivePermissions "u1" (Scenario.in_team "team-b") 7
      Scenario.team_revoked
    = (Returned member_permissions, Scenario.team_revoked)
  ∧ leaf member_permissions "tasks" "create" = Some (VBool true).
Proof.
  split; [vm_compute; reflexivity|]. split; [|vm_compute; reflexivity].
  apply (getEffectivePermissions_role_default Scenario.team_revoked "u1"
           (Scenario.in_team "team-b") 7
           {| id := "u1"; role := member; organization_id := "org1";
              active := true |}).
  - vm_compute. reflexivity.
  - intros key r Hr%elem_of_map_to_list. apply negb_true_iff. revert Hr.
    apply (forallb_elem (λ kr : nat * UserPermission,
             negb (matches_context "u1" (Scenario.in_team "team-b") kr.2))).
    vm_compute. reflexivity.
Defined.

(** The lookup does not compare [team_id] when the context names no team:
    a request for the organisation as a whole finds the row of a team.

    C7, at a table the services produce.  The member's only assignment is
    the one of team [team-a], written by [revokePermission]; no assignment
    exists for the member in [org1] without a team.  [getEffectivePermissions]
    for [org1] without a team nevertheless answers with the cached document
    of the team's row, in which [tasks.create] is [false], instead of the
    member default, in which it is [true]. *)
Theorem getEffectivePermissions_serves_team_row :
  (λ kr : nat * UserPermission,
     (user_id kr.2, up_organization_id kr.2, up_team_id kr.2))
    <$> map_to_list (user_permissions Scenario.team_revoked)
  = [("u1", Some "org1", Some "team-a")]
  ∧ getUser "u1" Scenario.team_revoked
    = Some {| id := "u1"; role := member; organization_id := "org1";
              active := true |}
  ∧ ∃ effective,
      getEffectivePermissions "u1" Scenario.in_org1 2 Scenario.team_revoked
        = (Returned effective, Scenario.team_revoked)
      ∧ leaf effective "tasks" "create" = Some (VBool false)
      ∧ leaf (DEFAULT_ROLE_PERMISSIONS member) "tasks" "create"
        = Some (VBool true)
      ∧ effective ≠ DEFAULT_ROLE_PERMISSIONS member.
Proof.
  split; [vm_compute; reflexivity|]. split; [vm_compute; reflexivity|].
  exists (match (getEffectivePermissions "u1" Scenario.in_org1 2
                   Scenario.team_revoked).1 with
          | Returned effective => effective
          | Thrown _ => ∅
          end).
  split; [vm_compute; reflexivity|]. split; [vm_compute; reflexivity|].
  split; [vm_compute; reflexivity|].
  intros Heq. apply (f_equal (λ d, leaf d "tasks" "create")) in Heq.
  vm_compute in Heq. discriminate.
Qed.

(** On the recompute path of [getEffectivePermissions] (the selected
    assignment has no cached document, names a template that exists and
    carries custom overrides), the document returned and written back as the
    cache takes every leaf of the custom overrides from the custom
    overrides, and every leaf of the template that the custom overrides do
    not own from the template, whatever the role default says.  No row that
    the services write is without a cached document, however. *)
Lemma recompute_precedence (st : Store) (userId : string)
    (context : Context) (now : nat) (user : User) (key : nat)
    (userPerm : UserPermission) (tid : string) (template : PermissionTemplate)
    (custom : doc) :
  getUser userId st = Some user →
  most_recent (select_user_permissions st userId context)
    = Some (key, userPerm) →
  effective_permissions userPerm = None →
  truthy (template_id userPerm) = Some tid →
  getTemplate tid st = Some template →
  custom_permissions userPerm = Some custom →
  ∃ effective st',
    getEffectivePermissions userId context now st = (Returned effective, st')
    ∧ effective_permissions <$> user_permissions st' !! key
      = Some (Some effective)
    ∧ ∀ category action v,
        (leaf custom category action = Some v →
         leaf effective category action = Some v)
        ∧ (leaf (permissions template) category action = Some v →
           leaf custom category action = None →
           leaf effective category action = Some v).
Proof.
  intros Huser Hrow Hnone Htid Htemplate Hcustom.
  unfold getEffectivePermissions. run_eff.
  rewrite Huser, Hrow, Hnone, Hcustom. unfold merge_template.
  rewrite Htid, Htemplate. eexists _, _. split; [done|]. split.
  - simpl. rewrite lookup_alter_eq.
    apply most_recent_elem, selected_lookup in Hrow as [-> _]. done.
  - intros category action v. split.
    + apply leaf_merge_override.
    + intros Htpl Hnot. apply leaf_merge_base; [done|].
      by apply leaf_merge_override.
Qed.

Lemma recompute_precedence_witness :
  ∃ effective st',
    getEffectivePermissions "u1" Scenario.in_org1 2 Scenario.member_uncached
      = (Returned effective, st')
    ∧ effective_permissions <$> user_permissions st' !! 0
      = Some (Some effective)
    ∧ ∀ category action v,
        (leaf {[ "resources" := flags [("manage", false)] ]} category action
           = Some v →
         leaf effective category action = Some v)
        ∧ (leaf (permissions Scenario.resource_template) category action
             = Some v →
           leaf {[ "resources" := flags [("manage", false)] ]} category action
             = None →
           leaf effective category action = Some v).
Proof.
  apply (recompute_precedence Scenario.member_uncached "u1" Scenario.in_org1 2
           {| id := "u1"; role := member; organization_id := "org1";
              active := true |}
           0 Scenario.uncached_assignment "t1" Scenario.resource_template).
  all: vm_compute; reflexivity.
Defined.

(** C4, at a table the services produce.  The member revoked
    [resources.manage]; then the template, which grants that leaf, was
    applied.  The assignment names the template and still carries the custom
    override [false] for the leaf, and the leaf is in the template's
    document as [true]; the effective document [getEffectivePermissions]
    returns carries the template's [true], not the custom override. *)
Theorem template_wins_after_applyTemplate :
  (λ kr : nat * UserPermission,
     (template_id kr.2,
      leaf (default ∅ (custom_permissions kr.2)) "resources" "manage"))
    <$> select_user_permissions Scenario.template_applied "u1"
          Scenario.in_org1
  = [(Some "t1", Some (VBool false))]
  ∧ (λ template, leaf (permissions template) "resources" "manage")
      <$> getTemplate "t1" Scenario.template_applied
    = Some (Some (VBool true))
  ∧ ∃ effective,
      getEffectivePermissions "u1" Scenario.in_org1 3 Scenario.template_applied
        = (Returned effective, Scenario.template_applied)
      ∧ leaf effective "resources" "manage" = Some (VBool true).
Proof.
  split; [vm_compute; reflexivity|]. split; [vm_compute; reflexivity|].
  exists (match (getEffectivePermissions "u1" Scenario.in_org1 3
                   Scenario.template_applied).1 with
          | Returned effective => effective
          | Thrown _ => ∅
          end).
  split; vm_compute; reflexivity.
Qed.
(** ** The capability check *)

Lemma walk_builtin (proto : doc) (parts : list string) :
  walk proto Builtin parts = false.
Proof. by destruct parts. Qed.

Lemma walk_null (proto : doc) (parts : list string) :
  walk proto (Plain VNull) parts = false.
Proof. by destruct parts. Qed.

(** As long as the program has added nothing to [Object.prototype], a walk
    that reaches it is denied. *)
Lemma walk_prototype (parts : list string) :
  walk ∅ ObjectPrototype parts = false.
Proof.
  destruct parts as [|part rest]; [done|]. simpl. unfold prototype_member.
  rewrite lookup_empty.
  repeat case_bool_decide; auto using walk_builtin, walk_null.
Qed.

(** With nothing added to [Object.prototype], the walk grants exactly when
    the path resolves, through own properties only, to the literal
    [true]. *)
Lemma walk_resolve (parts : list string) (v : value) :
  walk ∅ (Plain v) parts = true ↔ resolve v parts = Some (VBool true).
Proof.
  revert v. induction parts as [|part rest IH]; intros v.
  - simpl. destruct v as [|[]| | |]; split; done || congruence.
  - destruct v as [| | | |m]; simpl; try (split; done).
    destruct (m !! part) as [v'|]; [apply IH|].
    unfold prototype_member. rewrite lookup_empty.
    repeat case_bool_decide;
      rewrite ?walk_prototype, ?walk_builtin; split; done.
Qed.

(** A path that leaves the document at some segment is then denied. *)
Lemma walk_missing (d : doc) (parts : list string) :
  resolve (VObj d) parts = None → walk ∅ (Plain (VObj d)) parts = false.
Proof.
  intros Hnone. apply not_true_is_false. rewrite walk_resolve. congruence.
Qed.

(** [getEffectivePermissions] leaves [Object.prototype] alone. *)
Lemma getEffectivePermissions_prototype (st : Store) (userId : string)
    (context : Context) (now : nat) :
  object_prototype (getEffectivePermissions userId context now st).2
  = object_prototype st.
Proof.
  unfold getEffectivePermissions. run_eff.
  destruct (getUser userId st); [|done].
  destruct (most_recent _) as [[key userPerm]|]; [|done].
  by destruct (effective_permissions userPerm).
Qed.

(** X3. Where the fail-closed law holds: as long as nothing has been added
    to [Object.prototype], [checkPermission] returns a boolean for every
    permission string of an existing user, and the boolean is [true] exactly
    when the segments of the path lead, through own properties of the
    effective document, to the literal [true]. *)
Lemma checkPermission_fail_closed (st : Store) (userId permission : string)
    (context : Context) (now : nat) (user : User) :
  getUser userId st = Some user →
  object_prototype st = ∅ →
  ∃ effective st' granted,
    getEffectivePermissions userId context now st = (Returned effective, st')
    ∧ checkPermission userId permission context now st
      = (Returned granted, st')
    ∧ (granted = true
       ↔ resolve (VObj effective) (split permission) = Some (VBool true)).
Proof.
  intros Huser Hpristine.
  destruct (getEffectivePermissions_returns st userId context now user Huser)
    as (effective & st' & Heff).
  exists effective, st', (walk ∅ (Plain (VObj effective)) (split permission)).
  split; [done|]. split.
  - unfold checkPermission. run_eff. rewrite Heff. simpl.
    pose proof (getEffectivePermissions_prototype st userId context now)
      as Hproto.
    rewrite Heff in Hproto. simpl in Hproto. by rewrite Hproto, Hpristine.
  - apply walk_resolve.
Qed.

Lemma checkPermission_fail_closed_witness :
  ∃ effective st' granted,
    getEffectivePermissions "m1" Scenario.in_org1 7 Scenario.only_a_manager
      = (Returned effective, st')
    ∧ checkPermission "m1" "unknown.path" Scenario.in_org1 7
        Scenario.only_a_manager
      = (Returned granted, st')
    ∧ (granted = true
       ↔ resolve (VObj effective) (split "unknown.path") = Some (VBool true)).
Proof.
  apply (checkPermission_fail_closed Scenario.only_a_manager "m1"
           "unknown.path" Scenario.in_org1 7
           {| id := "m1"; role := manager; organization_id := "org1";
              active := true |}).
  - vm_compute. reflexivity.
  - vm_compute. reflexivity.
Defined.

(** Paths that are unknown, malformed, or name inherited members are all
    denied in that case; a granted and a refused leaf of the manager
    defaults. *)
Example checkPermission_examples :
  (checkPermission "m1" "unknown.path" Scenario.in_org1 7
     Scenario.only_a_manager).1 = Returned false
  ∧ (checkPermission "m1" "" Scenario.in_org1 7
       Scenario.only_a_manager).1 = Returned false
  ∧ (checkPermission "m1" "tasks..approve" Scenario.in_org1 7
       Scenario.only_a_manager).1 = Returned false
  ∧ (checkPermission "m1" "tasks" Scenario.in_org1 7
       Scenario.only_a_manager).1 = Returned false
  ∧ (checkPermission "m1" "tasks.approve.now" Scenario.in_org1 7
       Scenario.only_a_manager).1 = Returned false
  ∧ (checkPermission "m1" "toString" Scenario.in_org1 7
       Scenario.only_a_manager).1 = Returned false
  ∧ (checkPermission "m1" "__proto__.__proto__.x" Scenario.in_org1 7
       Scenario.only_a_manager).1 = Returned false
  ∧ (checkPermission "m1" "tasks.approve" Scenario.in_org1 7
       Scenario.only_a_manager).1 = Returned true
  ∧ (checkPermission "m1" "members.add" Scenario.in_org1 7
       Scenario.only_a_manager).1 = Returned false.
Proof. vm_compute. repeat split. Qed.

(** A leaf that holds a string, a number, [null] or an object is denied. *)
Example only_literal_true_is_granted :
  walk ∅ (Plain (VObj {[ "tasks" := VObj {[ "create" := VStr "true" ]} ]}))
       (split "tasks.create") = false
  ∧ walk ∅ (Plain (VObj {[ "tasks" := VObj {[ "create" := VNum 1 ]} ]}))
         (split "tasks.create") = false
  ∧ walk ∅ (Plain (VObj {[ "tasks" := VObj {[ "create" := VNull ]} ]}))
         (split "tasks.create") = false
  ∧ walk ∅ (Plain (VObj {[ "tasks" := VObj {[ "create" := VObj ∅ ]} ]}))
         (split "tasks.create") = false
  ∧ walk ∅ (Plain (VObj {[ "tasks" := VObj {[ "create" := VBool true ]} ]}))
         (split "tasks.create") = true.
Proof. vm_compute. repeat split. Qed.

(** C5, on a sequence of service calls.  Four members of one organisation,
    no assignment, nothing added to [Object.prototype]: the check of
    [unknown.path] for B is [false].  Then A is granted the path
    [__proto__.unknown.path]: the loop of [updateCustomPermission] follows
    [__proto__] from the empty custom overrides into [Object.prototype] and
    writes [unknown = { path: true }] there; the custom overrides it stores
    for A are empty.  B still has no assignment and B's effective document
    is the member default, in which the path [unknown.path] leads nowhere;
    but the check of [unknown.path] for B now finds [unknown] through
    [Object.prototype] and returns [true]. *)
Theorem checkPermission_granted_through_prototype :
  checkPermission "B" "unknown.path" Scenario.in_org1 2 Scenario.four_users
  = (Returned false, Scenario.four_users)
  ∧ grantPermission "A" "__proto__.unknown.path" Scenario.in_org1 1
      Scenario.four_users
    = (Returned (), Scenario.polluted)
  ∧ object_prototype Scenario.polluted
    = {[ "unknown" := VObj {[ "path" := VBool true ]} ]}
  ∧ (λ kr : nat * UserPermission, (user_id kr.2, custom_permissions kr.2))
      <$> map_to_list (user_permissions Scenario.polluted)
    = [("A", Some ∅)]
  ∧ getEffectivePermissions "B" Scenario.in_org1 2 Scenario.polluted
    = (Returned (DEFAULT_ROLE_PERMISSIONS member), Scenario.polluted)
  ∧ resolve (VObj (DEFAULT_ROLE_PERMISSIONS member)) (split "unknown.path")
    = None
  ∧ checkPermission "B" "unknown.path" Scenario.in_org1 2 Scenario.polluted
    = (Returned true, Scenario.polluted).
Proof. repeat split; vm_compute; reflexivity. Qed.

(** ** Applying a template *)




(** In that store the member had revoked [resources.manage], and one
    assignment answers the lookup; after the template is applied the
    override is still recorded in that row, and the check grants the
    leaf. *)
Example applyTemplate_drops_revoke :
  List.length (select_user_permissions Scenario.member_with_override "u1"
                 Scenario.in_org1) = 1
  ∧ (checkPermission "u1" "resources.manage" Scenario.in_org1 1
       Scenario.member_with_override).1 = Returned false
  ∧ (λ r, leaf (default ∅ (custom_permissions r)) "resources" "manage")
      <$> user_permissions Scenario.template_applied !! 0
    = Some (Some (VBool false))
  ∧ (checkPermission "u1" "resources.manage" Scenario.in_org1 3
       Scenario.template_applied).1
    = Returned true
  ∧ (checkPermission "u1" "tasks.view_own" Scenario.in_org1 3
       Scenario.template_applied).1
    = Returned true.
Proof. vm_compute. repeat split. Qed.

(** ** Assigning a manager *)

(** C9. [assignManager(u, u, ...)] throws the self-management error for
    every user, team, scope, delegated permissions and store, and leaves the
    store as it was. *)
Theorem assignManager_self (st : Store) (u : string) (teamId : option string)
    (sc : Scope) (delegatedPermissions : option doc) (now : nat) :
  assignManager u u teamId sc delegatedPermissions now st
  = (Thrown "User cannot manage themselves", st).
Proof. unfold assignManager. by rewrite bool_decide_eq_true_2. Qed.

Lemma least_level_elem (rows : list ManagementHierarchy)
    (e : ManagementHierarchy) :
  least_level rows = Some e → e ∈ rows.
Proof.
  revert e. induction rows as [|r rest IH]; intros e; [done|].
  simpl. destruct (least_level rest) as [r'|].
  - case_bool_decide; intros [= <-]; [right; by apply IH | left].
  - intros [= <-]. left.
Qed.

Lemma getUser_id (st : Store) (userId : string) (user : User) :
  getUser userId st = Some user → id user = userId ∧ userId ∈ dom (users st).
Proof.
  unfold getUser. destruct (users st !! userId) as [r|] eqn:Hr; [|done].
  intros [= <-]. split; [done|]. apply elem_of_dom. by eexists.
Qed.

(** The user the loop of [getManagementChain] moves to is the manager on an
    active row into the current user. *)
Lemma direct_manager_edge (st : Store) (userId : string) (mgr : User) :
  direct_manager st userId = Some mgr →
  active_edge st (id mgr) userId ∧ id mgr ∈ dom (users st).
Proof.
  unfold direct_manager.
  destruct (least_level _) as [e|] eqn:He; [|done]. simpl.
  intros [Hid Hdom]%getUser_id.
  apply least_level_elem, list_elem_of_filter in He as [Hmatch Hin].
  apply andb_true_iff in Hmatch as [Hu%bool_decide_eq_true Hact].
  split; [|by rewrite Hid]. exists e. by rewrite Hid.
Qed.

Lemma existsb_id_false (chain : list User) (userId : string) :
  existsb (λ u, bool_decide (id u = userId)) chain = false ↔
  userId ∉ id <$> chain.
Proof.
  induction chain as [|u rest IH]; simpl.
  - split; [intros _; apply not_elem_of_nil | done].
  - rewrite orb_false_iff, IH, not_elem_of_cons, bool_decide_eq_false.
    split; intros [Hne Hrest]; split; done || by intros ->.
Qed.

(** Every user in the chain is above the starting user. *)
Lemma chain_loop_above (st : Store) (start : string) (fuel : nat)
    (chain : list User) (visited : gset string) (current : string) :
  rtc (active_edge st) current start →
  (∀ u, u ∈ chain → tc (active_edge st) (id u) start) →
  ∀ u, u ∈ chain_loop fuel st chain visited current →
       tc (active_edge st) (id u) start.
Proof.
  revert chain visited current.
  induction fuel as [|fuel IH]; intros chain visited current Hcur Hchain;
    [done|].
  simpl. destruct (_ || _); [done|].
  destruct (direct_manager st current) as [mgr|] eqn:Hmgr; [|done].
  destruct (active mgr && _); [|done].
  apply direct_manager_edge in Hmgr as [Hedge _].
  assert (tc (active_edge st) (id mgr) start) as Hup
    by (eapply tc_rtc_r; [by apply tc_once | done]).
  apply IH; [by apply tc_rtc|].
  intros u [Hu| ->%list_elem_of_singleton]%elem_of_app; auto.
Qed.

Lemma getManagementChain_above (st : Store) (userId : string) (u : User) :
  u ∈ getManagementChain userId st → tc (active_edge st) (id u) userId.
Proof.
  apply chain_loop_above; [done|]. intros u' Hin. by apply elem_of_nil in Hin.
Qed.

Lemma findIndex_elem (managerId : string) (chain : list User) (k : nat) :
  findIndex managerId chain = Some k → ∃ u, u ∈ chain ∧ id u = managerId.
Proof.
  revert k. induction chain as [|u rest IH]; intros k; [done|]. simpl.
  case_bool_decide as Hid.
  - intros _. exists u. split; [left | done].
  - destruct (findIndex managerId rest) as [k'|]; [|done]. intros _.
    destruct (IH k' eq_refl) as (u' & Hin & Hu'). exists u'.
    split; [by right | done].
Qed.

(** The iterations given to the loop of [getManagementChain] are enough:
    more of them change nothing. *)
Lemma chain_loop_enough (st : Store) (fuel extra : nat) (chain : list User)
    (visited : gset string) (current : string) :
  NoDup (id <$> chain) →
  (∀ u, u ∈ chain → id u ∈ dom (users st)) →
  size (users st) < fuel + List.length chain →
  chain_loop (fuel + extra) st chain visited current
  = chain_loop fuel st chain visited current.
Proof.
  revert chain visited current.
  induction fuel as [|fuel IH]; intros chain visited current Hnodup Hdom Hlt.
  - exfalso.
    assert (List.length (id <$> chain) ≤ size (dom (users st)))%nat as Hle.
    { rewrite <-(size_list_to_set (C:=gset string)) by done.
      apply subseteq_size. intros x Hx%elem_of_list_to_set.
      apply list_elem_of_fmap in Hx as (u & -> & Hu). by apply Hdom. }
    rewrite length_fmap, size_dom in Hle. simpl in Hlt. lia.
  - simpl. destruct (_ || _); [done|].
    destruct (direct_manager st current) as [mgr|] eqn:Hmgr; [|done].
    destruct (active mgr) eqn:Hactive; [|done]. simpl.
    destruct (existsb _ chain) eqn:Hseen; [done|]. simpl.
    apply direct_manager_edge in Hmgr as [_ Hin].
    apply existsb_id_false in Hseen.
    apply IH.
    + rewrite fmap_app. apply NoDup_app. split; [done|]. split.
      * intros x Hx ->%list_elem_of_singleton. done.
      * apply NoDup_singleton.
    + intros u [Hu| ->%list_elem_of_singleton]%elem_of_app; auto.
    + rewrite length_app. simpl. lia.
Qed.

Lemma getManagementChain_fuel (st : Store) (userId : string) (extra : nat) :
  chain_loop (S (size (users st)) + extra) st [] ∅ userId
  = getManagementChain userId st.
Proof.
  apply chain_loop_enough; [apply NoDup_nil_2 | | simpl; lia].
  intros u Hin. by apply elem_of_nil in Hin.
Qed.

Lemma direct_manager_user (st : Store) (userId : string) (mgr : User) :
  direct_manager st userId = Some mgr → getUser (id mgr) st = Some mgr.
Proof.
  unfold direct_manager.
  destruct (least_level _) as [e|]; [|done]. simpl. intros Hmgr.
  by destruct (getUser_id _ _ _ Hmgr) as [-> _].
Qed.

(** The loop pushes active, existing users, and no user twice. *)
Lemma chain_loop_users (st : Store) (fuel : nat) (chain : list User)
    (visited : gset string) (current : string) :
  NoDup (id <$> chain) →
  (∀ u, u ∈ chain → active u = true ∧ getUser (id u) st = Some u) →
  NoDup (id <$> chain_loop fuel st chain visited current)
  ∧ ∀ u, u ∈ chain_loop fuel st chain visited current →
         active u = true ∧ getUser (id u) st = Some u.
Proof.
  revert chain visited current.
  induction fuel as [|fuel IH]; intros chain visited current Hnodup Hchain;
    [done|].
  simpl. destruct (_ || _); [done|].
  destruct (direct_manager st current) as [mgr|] eqn:Hmgr; [|done].
  destruct (active mgr) eqn:Hactive; [|done]. simpl.
  destruct (existsb _ chain) eqn:Hseen; [done|]. simpl.
  apply existsb_id_false in Hseen. apply IH.
  - rewrite fmap_app. apply NoDup_app. split; [done|]. split.
    + intros x Hx ->%list_elem_of_singleton. done.
    + apply NoDup_singleton.
  - intros u [Hu| ->%list_elem_of_singleton]%elem_of_app; [auto|].
    split; [done|]. by apply direct_manager_user in Hmgr.
Qed.

(** X7. [getManagementChain] returns on every table, cyclic ones included:
    the loop ends within one iteration more than there are users, so a
    larger bound gives the same chain.  The chain holds no user twice, and
    each of its users exists, is active and is above the given user through
    active rows. *)
Theorem getManagementChain_spec (st : Store) (userId : string) :
  (∀ extra, chain_loop (S (size (users st)) + extra) st [] ∅ userId
            = getManagementChain userId st)
  ∧ NoDup (id <$> getManagementChain userId st)
  ∧ ∀ u, u ∈ getManagementChain userId st →
         active u = true ∧ getUser (id u) st = Some u
         ∧ tc (active_edge st) (id u) userId.
Proof.
  split; [intros extra; apply getManagementChain_fuel|].
  destruct (chain_loop_users st (S (size (users st))) [] ∅ userId)
    as [Hnodup Husers]; [apply NoDup_nil_2 | |].
  { intros u Hin. by apply elem_of_nil in Hin. }
  split; [done|]. intros u Hu. destruct (Husers u Hu) as [Hactive Huser].
  split; [done|]. split; [done|]. by apply getManagementChain_above.
Qed.

Lemma manages_active_edge (st : Store) (m u : string) :
  manages st m u → active_edge st m u.
Proof. intros (e & ? & ? & ? & ? & ?). by exists e. Qed.

Lemma transitively_manages_above (st : Store) (m u : string) :
  transitively_manages st m u → tc (active_edge st) m u.
Proof.
  induction 1 as [x y H|x y z H _ IH].
  - apply tc_once. by apply manages_active_edge.
  - eapply tc_l; [|done]. by apply manages_active_edge.
Qed.

(** In a graph without cycles, a user who is below [managesUserId] is
    assigned at level 1 when made its manager. *)
Lemma calculateManagementLevel_below (st : Store)
    (managerId managesUserId : string) :
  acyclic st →
  transitively_manages st managesUserId managerId →
  calculateManagementLevel managerId managesUserId st = 1.
Proof.
  intros Hacyclic Hbelow. unfold calculateManagementLevel.
  destruct (single _); [done|].
  destruct (findIndex _ _) as [k|] eqn:Hk; [|done]. exfalso.
  apply findIndex_elem in Hk as (u & Hin%getManagementChain_above & Hid).
  apply (Hacyclic managerId). rewrite Hid in Hin.
  eapply tc_transitive; [done|]. by apply transitively_manages_above.
Qed.

Lemma manages_mono (st : Store) (e : ManagementHierarchy) (m u : string) :
  manages st m u →
  manages (set_management_hierarchy (λ rows, (rows ++ [e])%list) st) m u.
Proof.
  intros (e' & Hin & ?). exists e'. split; [|done].
  simpl. apply elem_of_app. by left.
Qed.

(** Ways to settle the hypotheses of the graph lemmas on a concrete table. *)
Lemma manages_existsb (st : Store) (m u : string) :
  existsb (λ e, bool_decide (manager_id e = m)
                && bool_decide (manages_user_id e = u)
                && mh_active e && bool_decide (level e = 1))
          (management_hierarchy st) = true →
  manages st m u.
Proof.
  intros (e & Hin%list_elem_of_In & He)%existsb_exists. exists e.
  repeat (apply andb_true_iff in He as [He ?]).
  repeat case_bool_decide; done.
Qed.

(** A table whose active rows all go down a ranking has no cycle. *)
Lemma ranked_acyclic (st : Store) (rank : string → nat) :
  (∀ e, e ∈ management_hierarchy st → mh_active e = true →
        rank (manages_user_id e) < rank (manager_id e)) →
  acyclic st.
Proof.
  intros Hrank.
  assert (∀ x y, tc (active_edge st) x y → rank y < rank x) as Hdown.
  { induction 1 as [x y (e & Hin & <- & <- & Hact)
                   |x y z (e & Hin & <- & <- & Hact) _ IH].
    - by apply Hrank.
    - specialize (Hrank e Hin Hact). lia. }
  intros x Hx%Hdown. lia.
Qed.

Lemma transitively_manages_mono (st : Store) (e : ManagementHierarchy)
    (m u : string) :
  transitively_manages st m u →
  transitively_manages
    (set_management_hierarchy (λ rows, (rows ++ [e])%list) st) m u.
Proof.
  induction 1 as [x y H|x y z H _ IH].
  - apply tc_once. by apply manages_mono.
  - eapply tc_l; [by apply manages_mono | done].
Qed.


Lemma active_edge_mono (st : Store) (e : ManagementHierarchy) (m u : string) :
  tc (active_edge st) m u →
  tc (active_edge (set_management_hierarchy (λ rows, (rows ++ [e])%list) st))
     m u.
Proof.
  apply tc_congruence with (f := λ x, x).
  intros x y (e' & Hin & ? & ? & ?). exists e'.
  split; [simpl; apply elem_of_app; by left|done].
Qed.

(** The schema accepts a new row when the organisation and both users
    exist, the team, if any, exists, and no row, active or ended, has the
    same manager, managed user, scope and the same non-null team. *)
Lemma accepts_edge_new (st : Store) (e : ManagementHierarchy) :
  mh_organization_id e ∈ organizations st →
  manager_id e ∈ dom (users st) →
  manages_user_id e ∈ dom (users st) →
  references (team_id e) (teams st) = true →
  (∀ e', e' ∈ management_hierarchy st →
         manager_id e' = manager_id e → manages_user_id e' = manages_user_id e →
         team_id e' = team_id e → scope e' = scope e → team_id e = None) →
  accepts_edge st e = true.
Proof.
  intros Horg Hmgr Hmanaged Hteam Hunique. unfold accepts_edge.
  rewrite !bool_decide_eq_true_2 by done. rewrite Hteam. simpl.
  destruct (team_id e) as [t|] eqn:Ht; [|done].
  apply forallb_forall. intros e' Hin%list_elem_of_In.
  apply negb_true_iff, not_true_is_false.
  rewrite !andb_true_iff, !bool_decide_eq_true.
  intros [[[Hm Hu] Ht'] Hsc]. by specialize (Hunique e' Hin Hm Hu Ht' Hsc).
Qed.

(** C1, as the code has it. [assignManager] has no cycle check.  Take two
    distinct existing users of one organisation, and suppose that every
    stored row with the same (manager, managed user, team, scope) is an
    ended row without a team, so that neither the duplicate check nor the
    UNIQUE constraint of the schema objects, that the organisation exists
    and that the team, if one is given, exists.  Then [assignManager]
    returns a new active row for the pair and appends it to the table,
    whether or not the managed user already manages the manager.  If the
    managed user does manage the manager transitively through active
    level-1 rows, the active rows then contain a cycle through the manager;
    if moreover the active rows had no cycle before, the new row has level 1
    and the cycle is one of active level-1 rows. *)
Theorem assignManager_closes_cycle (st : Store)
    (managerId managesUserId : string) (teamId : option string) (sc : Scope)
    (delegatedPermissions : option doc) (now : nat) (mgr managedUser : User) :
  managerId ≠ managesUserId →
  getUser managerId st = Some mgr →
  getUser managesUserId st = Some managedUser →
  organization_id mgr = organization_id managedUser →
  organization_id mgr ∈ organizations st →
  references (truthy teamId) (teams st) = true →
  (∀ e, e ∈ management_hierarchy st →
        manager_id e = managerId → manages_user_id e = managesUserId →
        team_id e = truthy teamId → scope e = sc →
        mh_active e = false ∧ team_id e = None) →
  ∃ e,
    let st' := set_management_hierarchy (λ rows, (rows ++ [e])%list) st in
    assignManager managerId managesUserId teamId sc delegatedPermissions now st
      = (Returned e, st')
    ∧ manager_id e = managerId ∧ manages_user_id e = managesUserId
    ∧ team_id e = truthy teamId ∧ scope e = sc ∧ mh_active e = true
    ∧ (transitively_manages st managesUserId managerId →
       tc (active_edge st') managerId managerId
       ∧ (acyclic st →
          level e = 1 ∧ transitively_manages st' managerId managerId)).
Proof.
  intros Hne Hmgr Hmanaged Horg Horg_exists Hteam Hrows.
  unfold assignManager. rewrite bool_decide_eq_false_2 by done. run_eff.
  rewrite Hmgr, Hmanaged. simpl.
  rewrite bool_decide_eq_false_2 by (intros H; by apply H). simpl.
  rewrite filter_none; simpl.
  2: { intros e He. unfold same_relationship.
       rewrite !andb_true_iff, !bool_decide_eq_true.
       intros [[[[Hm Hu] Ht] Hsc] Hactive].
       destruct (Hrows e He Hm Hu Ht Hsc) as [Hended _]. congruence. }
  rewrite accepts_edge_new; simpl; try done.
  2: { by apply getUser_id in Hmgr as [_ ?]. }
  2: { by apply getUser_id in Hmanaged as [_ ?]. }
  2: { intros e He Hm Hu Ht Hsc.
       destruct (Hrows e He Hm Hu Ht Hsc) as [_ Hnull]. congruence. }
  eexists. split; [done|]. simpl. repeat (split; [done|]).
  intros Hbelow. split.
  - eapply tc_l.
    + eexists. split; [simpl; apply elem_of_app; right; left|]. done.
    + by apply active_edge_mono, transitively_manages_above.
  - intros Hacyclic. split.
    + by apply calculateManagementLevel_below.
    + eapply tc_l; [|by apply transitively_manages_mono].
      eexists. split; [simpl; apply elem_of_app; right; left|].
      simpl. repeat (split; [done|]).
      by apply calculateManagementLevel_below.
Qed.

(** The hypotheses on the graph hold in that store: A manages C
    transitively, and the active rows have no cycle. *)
Lemma chain_AB_BC_acyclic :
  transitively_manages Scenario.chain_AB_BC "A" "C"
  ∧ acyclic Scenario.chain_AB_BC.
Proof.
  split.
  - apply (tc_l _ "A" "B" "C"); [|apply tc_once];
      apply manages_existsb; vm_compute; reflexivity.
  - apply (ranked_acyclic _ Scenario.seniority). intros e Hin Hact.
    apply (forallb_elem (λ e, implb (mh_active e)
             (Nat.ltb (Scenario.seniority (manages_user_id e))
                      (Scenario.seniority (manager_id e))))) in Hin;
      [|vm_compute; reflexivity].
    simpl in Hin. rewrite Hact in Hin. by apply Nat.ltb_lt.
Qed.

Lemma assignManager_closes_cycle_witness :
  ∃ e,
    let st' := set_management_hierarchy (λ rows, (rows ++ [e])%list)
                                        Scenario.chain_AB_BC in
    assignManager "C" "A" None team None 3 Scenario.chain_AB_BC
      = (Returned e, st')
    ∧ manager_id e = "C" ∧ manages_user_id e = "A"
    ∧ team_id e = None ∧ scope e = team ∧ mh_active e = true
    ∧ tc (active_edge st') "C" "C"
    ∧ level e = 1 ∧ transitively_manages st' "C" "C".
Proof.
  destruct (assignManager_closes_cycle Scenario.chain_AB_BC "C" "A" None team
              None 3
              {| id := "C"; role := member; organization_id := "org1";
                 active := true |}
              {| id := "A"; role := member; organization_id := "org1";
                 active := true |})
    as (e & Hrun & Hm & Hu & Ht & Hsc & Hactive & Hcycle).
  - done.
  - vm_compute. reflexivity.
  - vm_compute. reflexivity.
  - reflexivity.
  - vm_compute. reflexivity.
  - reflexivity.
  - intros e Hin Hm Hu _ _. exfalso. revert Hm Hu.
    apply (forallb_elem (λ e, negb (bool_decide (manager_id e = "C")
                                    && bool_decide (manages_user_id e = "A"))))
      in Hin; [|vm_compute; reflexivity].
    simpl in Hin. apply negb_true_iff in Hin.
    intros Hm Hu. rewrite !bool_decide_eq_true_2 in Hin by done. done.
  - destruct chain_AB_BC_acyclic as [Hbelow Hacyclic].
    destruct (Hcycle Hbelow) as [Hloop Hdirect].
    destruct (Hdirect Hacyclic) as [Hlevel Hmanages].
    exists e. repeat (split; [done|]). done.
Defined.

(** With A managing B and B managing C, the assignment of C as manager of A
    is not refused: a row is returned and stored, active and of level 1. *)
Lemma assignManager_cycle_counterexample :
  transitively_manages Scenario.chain_AB_BC "A" "C"
  ∧ ∃ e st',
      assignManager "C" "A" None team None 3 Scenario.chain_AB_BC
        = (Returned e, st')
      ∧ e ∈ management_hierarchy st'
      ∧ manager_id e = "C" ∧ manages_user_id e = "A"
      ∧ mh_active e = true ∧ level e = 1.
Proof.
  split.
  - apply (tc_l _ "A" "B" "C"); [|apply tc_once];
      apply manages_existsb; vm_compute; reflexivity.
  - eexists _, _. split; [vm_compute; reflexivity|].
    split; [|by vm_compute]. right. right. left.
Qed.

(** The same pair the other way round: A is already two levels above C and
    the new row records that distance. *)
Example assignManager_existing_chain :
  level <$> (λ r, match r with Returned e => Some e | Thrown _ => None end)
              (assignManager "A" "C" None team None 3
                 Scenario.chain_AB_BC).1
  = Some 2.
Proof. vm_compute. reflexivity. Qed.

(** The duplicate check looks at active rows only, the UNIQUE constraint at
    all rows: once C has managed A in team T1 and the row is ended, the
    same assignment is refused by the database, not by the service. *)
Example assignManager_after_removal :
  let st1 := Scenario.after (assignManager "C" "A" (Some "T1") team None 1)
                            Scenario.four_users in
  let st2 := Scenario.after (removeManager "C" "A" (Some "T1") 2) st1 in
  (assignManager "C" "A" (Some "T1") team None 3 st2).1
  = Thrown "Failed to assign manager"
  ∧ (λ r, match r with Returned e => Some (mh_active e) | Thrown _ => None end)
      (assignManager "C" "A" None team None 3 st2).1
    = Some true.
Proof. vm_compute. repeat split. Qed.



(** An ended row of the same manager, managed user, team and scope makes
    the schema refuse the row. *)
Lemma accepts_edge_taken (st : Store) (e ended : ManagementHierarchy) :
  ended ∈ management_hierarchy st →
  manager_id ended = manager_id e →
  manages_user_id ended = manages_user_id e →
  team_id ended = team_id e →
  scope ended = scope e →
  is_Some (team_id e) →
  accepts_edge st e = false.
Proof.
  intros Hin Hm Hu Ht Hsc [t Hteam]. unfold accepts_edge. rewrite Hteam.
  destruct (forallb _ (management_hierarchy st)) eqn:Hall;
    [|by rewrite andb_false_r].
  apply (forallb_elem _ _ Hall) in Hin. simpl in Hin.
  rewrite Hm, Hu, Ht, Hteam, Hsc in Hin.
  by rewrite !bool_decide_eq_true_2 in Hin.
Qed.

(** X9. Removal only ends a row, and the UNIQUE constraint of the schema
    also counts ended rows.  So when a row of the same manager, managed
    user, team and scope is stored and none of them is active (the
    relationship existed in that team and was removed), [assignManager]
    for two distinct existing users of one organisation passes its own
    duplicate check, is refused by the database, and throws, leaving the
    table as it was: the relationship cannot be assigned again. *)
Theorem assignManager_blocked_by_ended_row (st : Store)
    (managerId managesUserId : string) (teamId : option string) (t : string)
    (sc : Scope) (delegatedPermissions : option doc) (now : nat)
    (mgr managedUser : User) (ended : ManagementHierarchy) :
  managerId ≠ managesUserId →
  getUser managerId st = Some mgr →
  getUser managesUserId st = Some managedUser →
  organization_id mgr = organization_id managedUser →
  truthy teamId = Some t →
  ended ∈ management_hierarchy st →
  manager_id ended = managerId →
  manages_user_id ended = managesUserId →
  team_id ended = Some t →
  scope ended = sc →
  (∀ e, e ∈ management_hierarchy st →
        manager_id e = managerId → manages_user_id e = managesUserId →
        team_id e = Some t → scope e = sc → mh_active e = false) →
  assignManager managerId managesUserId teamId sc delegatedPermissions now st
  = (Thrown "Failed to assign manager", st).
Proof.
  intros Hne Hmgr Hmanaged Horg Hteam Hin Hm Hu Ht Hsc Hended.
  unfold assignManager. rewrite bool_decide_eq_false_2 by done. run_eff.
  rewrite Hmgr, Hmanaged. simpl.
  rewrite bool_decide_eq_false_2 by (intros H; by apply H). simpl.
  rewrite filter_none; simpl.
  2: { intros e He. unfold same_relationship.
       rewrite !andb_true_iff, !bool_decide_eq_true, Hteam.
       intros [[[[Hm' Hu'] Ht'] Hsc'] Hactive].
       rewrite (Hended e He Hm' Hu' Ht' Hsc') in Hactive. done. }
  rewrite (accepts_edge_taken st _ ended); simpl; try done.
  all: rewrite Hteam; by eauto.
Qed.

Lemma assignManager_blocked_by_ended_row_witness :
  (mh_active <$> management_hierarchy Scenario.removed_T1) = [false]
  ∧ assignManager "C" "A" (Some "T1") team None 3 Scenario.removed_T1
    = (Thrown "Failed to assign manager", Scenario.removed_T1).
Proof.
  split; [vm_compute; reflexivity|].
  apply (assignManager_blocked_by_ended_row Scenario.removed_T1 "C" "A"
           (Some "T1") "T1" team None 3
           {| id := "C"; role := member; organization_id := "org1";
              active := true |}
           {| id := "A"; role := member; organization_id := "org1";
              active := true |}
           (default (Scenario.direct "C" "A")
                    (head (management_hierarchy Scenario.removed_T1)))).
  all: try done; try (vm_compute; reflexivity).
  - apply (list_elem_of_lookup_2 _ 0). vm_compute. reflexivity.
  - intros e Hin _ _ _ _. apply negb_true_iff. revert e Hin.
    apply (forallb_elem (λ e, negb (mh_active e))). vm_compute. reflexivity.
Defined.

(** No operation of the service stores a self-loop. *)
Lemma assignManager_no_self_loop (st : Store)
    (managerId managesUserId : string) (teamId : option string) (sc : Scope)
    (delegatedPermissions : option doc) (now : nat) :
  no_self_loop st →
  no_self_loop
    (assignManager managerId managesUserId teamId sc delegatedPermissions
       now st).2.
Proof.
  intros Hst. unfold assignManager. case_bool_decide as Hself; [done|].
  run_eff. destruct (getUser managerId st); [|done].
  destruct (getUser managesUserId st); [|done]. simpl.
  case_bool_decide; [done|]. simpl. destruct (single _); [done|]. simpl.
  destruct (accepts_edge _ _); [|done]. simpl.
  intros e [He| ->%list_elem_of_singleton]%elem_of_app; [by apply Hst|done].
Qed.

Lemma removeManager_no_self_loop (st : Store)
    (managerId managesUserId : string) (teamId : option string) (now : nat) :
  no_self_loop st →
  no_self_loop (removeManager managerId managesUserId teamId now st).2.
Proof.
  intros Hst e. unfold removeManager. run_eff.
  intros (e' & -> & Hin)%list_elem_of_fmap.
  destruct (_ && _); simpl; by apply Hst.
Qed.

(** X8. The management table never gets a self-loop: when no stored row has
    a user manage themselves, none has after [assignManager] or
    [removeManager], whatever their arguments and whether or not they
    throw. *)
Theorem no_self_loop_preserved (st : Store) (managerId managesUserId : string)
    (teamId : option string) (sc : Scope) (delegatedPermissions : option doc)
    (now : nat) :
  no_self_loop st →
  no_self_loop
    (assignManager managerId managesUserId teamId sc delegatedPermissions
       now st).2
  ∧ no_self_loop (removeManager managerId managesUserId teamId now st).2.
Proof.
  intros Hst. split.
  - by apply assignManager_no_self_loop.
  - by apply removeManager_no_self_loop.
Qed.

Lemma no_self_loop_preserved_witness :
  no_self_loop
    (assignManager "C" "A" None team None 3 Scenario.chain_AB_BC).2
  ∧ no_self_loop (removeManager "C" "A" None 3 Scenario.chain_AB_BC).2.
Proof.
  apply no_self_loop_preserved. intros e Hin Hself.
  apply (forallb_elem (λ e, negb (bool_decide
                                    (manager_id e = manages_user_id e))))
    in Hin; [|vm_compute; reflexivity].
  simpl in Hin. by rewrite bool_decide_eq_true_2 in Hin.
Defined.

(** ** Reports *)

Lemma getAllReports_step (fuel : nat) (managerId : string) (st : Store) :
  getAllReports (S fuel) managerId st
  = snd <$>
      foldl (visit (λ userId, getAllReports fuel userId st))
            (Some (list_to_set (id <$> getDirectReports managerId None st),
                   getDirectReports managerId None st))
            (getDirectReports managerId None st).
Proof. reflexivity. Qed.

Lemma two_cycle_reports :
  getDirectReports "A" None Scenario.two_cycle
    = [{| id := "B"; role := member; organization_id := "org1";
          active := true |}]
  ∧ getDirectReports "B" None Scenario.two_cycle
    = [{| id := "A"; role := member; organization_id := "org1";
          active := true |}].
Proof. split; vm_compute; reflexivity. Qed.

Lemma getAllReports_two_cycle (fuel : nat) :
  getAllReports fuel "A" Scenario.two_cycle = None
  ∧ getAllReports fuel "B" Scenario.two_cycle = None.
Proof.
  destruct two_cycle_reports as [HA HB].
  induction fuel as [|fuel [IHA IHB]]; [done|].
  rewrite !getAllReports_step, HA, HB. simpl. by rewrite IHA, IHB.
Qed.

(** C3, at a table the service itself produces ([assignManager("A", "B")]
    followed by [assignManager("B", "A")]): the call for A asks for the
    reports of B, which asks for the reports of A, and so on; no bound on
    the depth of the recursion lets [getAllReports] return.  The set built
    in each call only filters that call's result. *)
Theorem getAllReports_diverges_on_cycle (fuel : nat) :
  getAllReports fuel "A" Scenario.two_cycle = None.
Proof. apply getAllReports_two_cycle. Qed.

(** On the chain A, B, C, D the reports of A are B, C, D, in whatever order
    the three rows were inserted. *)
Example getAllReports_chain (rows : list ManagementHierarchy) :
  rows ≡ₚ [Scenario.direct "A" "B"; Scenario.direct "B" "C";
            Scenario.direct "C" "D"] →
  fmap (M:=list) id <$> getAllReports 4 "A" (Scenario.with_edges rows)
  = Some ["B"; "C"; "D"].
Proof.
  intros Hperm. symmetry in Hperm. apply permutations_Permutation in Hperm.
  apply (forallb_elem (λ rows, bool_decide
           (fmap (M:=list) id <$> getAllReports 4 "A" (Scenario.with_edges rows)
            = Some ["B"; "C"; "D"]))) in Hperm; [|vm_compute; reflexivity].
  by apply bool_decide_eq_true in Hperm.
Qed.

(** A user reached along two paths is listed once... *)
Example getAllReports_diamond :
  fmap (M:=list) id <$> getAllReports 4 "A"
    (Scenario.with_edges [Scenario.direct "A" "B"; Scenario.direct "A" "C";
                          Scenario.direct "B" "D"; Scenario.direct "C" "D"])
  = Some ["B"; "C"; "D"].
Proof. vm_compute. reflexivity. Qed.

(** ...but a direct report held through two rows (two teams) is listed
    twice: the direct reports are copied into the result as they come. *)
Example getAllReports_two_teams :
  fmap (M:=list) id <$> getAllReports 4 "A" Scenario.two_teams = Some ["B"; "B"].
Proof. vm_compute. reflexivity. Qed.


(** ** Reports on a table without cycles *)

(** A direct report sits on an active level-1 row of the manager. *)
Lemma reports_to_manages (st : Store) (x y : string) :
  reports_to st x y → manages st x y.
Proof.
  unfold reports_to, getDirectReports.
  intros (u & -> & [_ Hu]%list_elem_of_filter)%list_elem_of_fmap.
  apply list_elem_of_omap in Hu as (e & [He Hin]%list_elem_of_filter & Hget).
  apply getUser_id in Hget as [-> _]. exists e. split; [done|].
  simpl in He. repeat (apply andb_true_iff in He as [He ?]).
  repeat case_bool_decide; done.
Qed.

Lemma add_indirect_spec (acc : gset string * list User) (u : User) :
  in_step acc →
  in_step (add_indirect acc u)
  ∧ (∀ y, y ∈ (add_indirect acc u).1 ↔ y ∈ acc.1 ∨ y = id u)
  ∧ (NoDup (id <$> acc.2) → NoDup (id <$> (add_indirect acc u).2)).
Proof.
  intros Hacc. unfold add_indirect. case_bool_decide as Hseen.
  - split; [done|]. split; [|done]. intros y. split; [auto|].
    intros [?| ->]; done.
  - unfold in_step in *. simpl. split; [|split].
    + intros y. rewrite fmap_app, elem_of_app, elem_of_union, (Hacc y).
      simpl. rewrite elem_of_singleton, list_elem_of_singleton. tauto.
    + intros y. rewrite elem_of_union, elem_of_singleton. tauto.
    + intros Hnodup. rewrite fmap_app. apply NoDup_app. split; [done|].
      split; [|apply NoDup_singleton].
      intros y Hy ->%list_elem_of_singleton. apply Hseen. by apply Hacc.
Qed.

Lemma foldl_add_indirect_spec (indirect : list User)
    (acc : gset string * list User) :
  in_step acc →
  in_step (foldl add_indirect acc indirect)
  ∧ (∀ y, y ∈ (foldl add_indirect acc indirect).1
          ↔ y ∈ acc.1 ∨ y ∈ id <$> indirect)
  ∧ (NoDup (id <$> acc.2) →
     NoDup (id <$> (foldl add_indirect acc indirect).2)).
Proof.
  revert acc. induction indirect as [|u rest IH]; intros acc Hacc; simpl.
  - split; [done|]. split; [|done]. intros y. split; [auto|].
    intros [?|Hy]; [done|]. by apply elem_of_nil in Hy.
  - destruct (add_indirect_spec acc u Hacc) as (Hstep & Hset & Hnodup).
    destruct (IH _ Hstep) as (Hstep' & Hset' & Hnodup').
    split; [done|]. split; [|auto].
    intros y. rewrite Hset', Hset, elem_of_cons. tauto.
Qed.

Lemma visit_pending (recurse : string → option (list User))
    (reports : list User) :
  foldl (visit recurse) None reports = None.
Proof. by induction reports. Qed.

Section reports.

Context (st : Store) (recurse : string → option (list User)).

Hypothesis recurse_below : ∀ m l,
  recurse m = Some l → ∀ y, y ∈ id <$> l ↔ tc (reports_to st) m y.

Lemma visit_spec (reports : list User) (acc acc' : gset string * list User) :
  in_step acc →
  foldl (visit recurse) (Some acc) reports = Some acc' →
  in_step acc'
  ∧ (∀ y, y ∈ acc'.1 ↔
          y ∈ acc.1 ∨ ∃ r, r ∈ reports ∧ tc (reports_to st) (id r) y)
  ∧ (NoDup (id <$> acc.2) → NoDup (id <$> acc'.2)).
Proof.
  revert acc. induction reports as [|r rest IH]; intros acc Hacc; simpl.
  - intros [= <-]. split; [done|]. split; [|done]. intros y.
    split; [auto|]. intros [?|(r & Hr & _)]; [done|].
    by apply elem_of_nil in Hr.
  - destruct (recurse (id r)) as [indirect|] eqn:Hind;
      simpl; [|by rewrite visit_pending].
    intros Hrest.
    destruct (foldl_add_indirect_spec indirect acc Hacc)
      as (Hstep & Hset & Hnodup).
    destruct (IH _ Hstep Hrest) as (Hstep' & Hset' & Hnodup').
    split; [done|]. split; [|auto]. intros y.
    rewrite Hset', Hset, (recurse_below _ _ Hind). split.
    + intros [[?|?]|(r' & Hr' & ?)]; [by left| |];
        right; eexists; (split; [|done]); [left | by right].
    + intros [?|(r' & [->|Hr']%elem_of_cons & ?)];
        [by left; left | by left; right | right; eauto].
Qed.

End reports.

(** X5. Whenever [getAllReports] returns, the users it lists are exactly
    those below the manager: the ones reached from the manager by one or
    more steps to a direct report.  The list repeats no user provided the
    manager's own direct reports repeat none. *)
Theorem getAllReports_reachable (st : Store) (fuel : nat) (managerId : string)
    (l : list User) :
  getAllReports fuel managerId st = Some l →
  (∀ y, y ∈ id <$> l ↔ tc (reports_to st) managerId y)
  ∧ (NoDup (id <$> getDirectReports managerId None st) → NoDup (id <$> l)).
Proof.
  revert managerId l.
  induction fuel as [|fuel IH]; intros managerId l; [done|].
  rewrite getAllReports_step.
  destruct (foldl _ _ _) as [acc'|] eqn:Hfold; [|done]. intros [= <-].
  apply (visit_spec st) in Hfold as (Hstep & Hset & Hnodup).
  - split; [|done]. intros y. rewrite <-(Hstep y), Hset. simpl.
    rewrite elem_of_list_to_set. split.
    + intros [?|(r & Hr & Hy)]; [by apply tc_once|].
      eapply tc_l; [|done]. unfold reports_to.
      by apply list_elem_of_fmap_2.
    + intros Hy. destruct Hy as [x y Hxy|x z y Hxz Hzy]; [by left|].
      right. apply list_elem_of_fmap in Hxz as (r & -> & Hr). eauto.
  - intros m l' Hl'. by apply IH.
  - intros y. simpl. by rewrite elem_of_list_to_set.
Qed.

Lemma getAllReports_reachable_witness :
  ∃ l, getAllReports 5 "A" Scenario.chain_AB_BC = Some l
       ∧ id <$> l = ["B"; "C"]
       ∧ (∀ y, y ∈ id <$> l ↔ tc (reports_to Scenario.chain_AB_BC) "A" y)
       ∧ (NoDup (id <$> getDirectReports "A" None Scenario.chain_AB_BC) →
          NoDup (id <$> l)).
Proof.
  exists (default [] (getAllReports 5 "A" Scenario.chain_AB_BC)).
  split; [vm_compute; reflexivity|]. split; [vm_compute; reflexivity|].
  apply (getAllReports_reachable Scenario.chain_AB_BC 5 "A").
  vm_compute. reflexivity.
Defined.

(** X6. On a table whose active level-1 rows all go down a ranking of the
    users (so that they have no cycle), [getAllReports] returns once the
    depth allowed to the recursion exceeds the rank of the manager. *)
Theorem getAllReports_returns (st : Store) (rank : string → nat)
    (fuel : nat) (managerId : string) :
  (∀ x y, manages st x y → rank y < rank x) →
  rank managerId < fuel →
  is_Some (getAllReports fuel managerId st).
Proof.
  intros Hrank. revert managerId.
  induction fuel as [|fuel IH]; intros managerId Hlt; [lia|].
  rewrite getAllReports_step.
  assert (∀ r, r ∈ getDirectReports managerId None st →
               is_Some (getAllReports fuel (id r) st)) as Hreports.
  { intros r Hr. apply IH.
    assert (rank (id r) < rank managerId); [|lia].
    apply Hrank, reports_to_manages. by apply list_elem_of_fmap_2. }
  revert Hreports.
  generalize (list_to_set (C:=gset string)
                (id <$> getDirectReports managerId None st),
              getDirectReports managerId None st) as acc.
  induction (getDirectReports managerId None st) as [|r rest IHrest];
    intros acc Hreports; simpl; [by eexists|].
  destruct (Hreports r) as [indirect ->]; [left|]. simpl.
  apply IHrest. intros r' Hr'. apply Hreports. by right.
Qed.

Lemma getAllReports_returns_witness :
  is_Some (getAllReports 5 "A" Scenario.chain_AB_BC).
Proof.
  apply (getAllReports_returns _ Scenario.seniority); [|vm_compute; lia].
  intros x y (e & Hin & <- & <- & Hact & _).
  apply (forallb_elem (λ e, implb (mh_active e)
           (Nat.ltb (Scenario.seniority (manages_user_id e))
                    (Scenario.seniority (manager_id e))))) in Hin;
    [|vm_compute; reflexivity].
  simpl in Hin. rewrite Hact in Hin. by apply Nat.ltb_lt.
Defined.

(** ** Reports on a table with a cycle *)

(** A call that waits for a pending call is pending. *)
Lemma visit_waits (recurse : string → option (list User))
    (reports : list User) (acc : option (gset string * list User))
    (r : User) :
  r ∈ reports → recurse (id r) = None →
  foldl (visit recurse) acc reports = None.
Proof.
  revert acc. induction reports as [|r' rest IH]; intros acc Hin Hpending.
  - by apply elem_of_nil in Hin.
  - simpl. apply elem_of_cons in Hin as [<-|Hin]; [|by apply IH].
    unfold visit at 2. rewrite Hpending.
    destruct acc; simpl; apply visit_pending.
Qed.

(** From a user who reaches a cycle of direct reports, one step to a direct
    report leads to a user who reaches it too. *)
Lemma cycle_below_step (st : Store) (x : string) :
  (∃ y, rtc (reports_to st) x y ∧ tc (reports_to st) y y) →
  ∃ z, reports_to st x z
       ∧ ∃ y, rtc (reports_to st) z y ∧ tc (reports_to st) y y.
Proof.
  intros (y & Hxy & Hcycle).
  destruct Hxy as [x|x z y Hxz Hzy]; [|by eauto].
  assert (∃ z, reports_to st x z ∧ rtc (reports_to st) z x) as (z & Hxz & Hzx).
  { inversion Hcycle as [? ? Hxx|? z ? Hxz Hzx]; subst.
    - exists x. split; [done|]. apply rtc_refl.
    - exists z. split; [done|]. by apply tc_rtc. }
  exists z. split; [done|]. exists x. done.
Qed.

(** X11. [getAllReports] never returns for a manager from whom a cycle of
    direct reports can be reached (the manager is on the cycle, or one of
    the reports below is): whatever depth is allowed to the recursion, a
    call is still pending.  The set built in each call does not stop the
    recursion. *)
Theorem getAllReports_pending_below_cycle (st : Store) (managerId cycle : string)
    (fuel : nat) :
  rtc (reports_to st) managerId cycle →
  tc (reports_to st) cycle cycle →
  getAllReports fuel managerId st = None.
Proof.
  intros Hreach Hcycle.
  assert (∃ y, rtc (reports_to st) managerId y ∧ tc (reports_to st) y y)
    as Hbelow by eauto.
  clear Hreach Hcycle. revert managerId Hbelow.
  induction fuel as [|fuel IH]; intros managerId Hbelow; [done|].
  apply cycle_below_step in Hbelow as (z & Hz & Hbelow).
  rewrite getAllReports_step.
  apply list_elem_of_fmap in Hz as (r & -> & Hr).
  erewrite visit_waits; [done | done |]. by apply IH.
Qed.

Lemma getAllReports_pending_below_cycle_witness :
  getAllReports 7 "A" Scenario.two_cycle = None.
Proof.
  destruct two_cycle_reports as [HA HB].
  apply (getAllReports_pending_below_cycle Scenario.two_cycle "A" "A" 7).
  - apply rtc_refl.
  - apply (tc_l _ "A" "B" "A"); [|apply tc_once];
      unfold reports_to; rewrite ?HA, ?HB; simpl; left.
Defined.
(** ** The cached effective document *)

(** Whenever the selected assignment carries a cached document, that
    document is the answer: neither the user's role, nor the template, nor
    the custom overrides are looked at. *)
Lemma getEffectivePermissions_cached (st : Store) (userId : string)
    (context : Context) (now : nat) (user : User) (key : nat)
    (userPerm : UserPermission) (cached : doc) :
  getUser userId st = Some user →
  most_recent (select_user_permissions st userId context)
    = Some (key, userPerm) →
  effective_permissions userPerm = Some cached →
  getEffectivePermissions userId context now st = (Returned cached, st).
Proof.
  intros Huser Hrow Hcached. unfold getEffectivePermissions. run_eff.
  by rewrite Huser, Hrow, Hcached.
Qed.

(** C2, at a table the services themselves produce.  The member's cache was
    written by [grantPermission]; the user was then promoted to manager.
    [getEffectivePermissions] still returns the cached document, in which
    [tasks.approve] is the member's [false], and writes nothing; recomputed
    from the same table without the cache the leaf is the manager's
    [true]. *)
Theorem getEffectivePermissions_stale_after_promotion :
  (getUser "u1" Scenario.promoted
     = Some {| id := "u1"; role := manager; organization_id := "org1";
               active := true |})
  ∧ ∃ cached,
      getEffectivePermissions "u1" Scenario.in_org1 3 Scenario.promoted
        = (Returned cached, Scenario.promoted)
      ∧ leaf cached "tasks" "approve" = Some (VBool false)
      ∧ ∃ recomputed st',
          getEffectivePermissions "u1" Scenario.in_org1 3
            (Scenario.without_cache Scenario.promoted)
            = (Returned recomputed, st')
          ∧ leaf recomputed "tasks" "approve" = Some (VBool true).
Proof.
  split; [vm_compute; reflexivity|].
  eexists. split; [vm_compute; reflexivity|].
  split; [vm_compute; reflexivity|].
  eexists _, _. split; vm_compute; reflexivity.
Qed.

(** ** Revoking *)

(** C6, at a table the services themselves produce.  With one assignment of
    the user in each of two teams, the lookup for the organisation alone
    has more than one row, [.single()] yields nothing, and both the revoke
    and the later grant insert a new row that starts from empty custom
    overrides.  The check is [false] after the revoke and [true] again
    after the grant of [leaves.request]. *)
Theorem revoke_forgotten_after_grant :
  leaf member_permissions "tasks" "create" = Some (VBool true)
  ∧ (checkPermission "u1" "tasks.create" Scenario.in_org1 4
       Scenario.revoked).1 = Returned false
  ∧ (checkPermission "u1" "tasks.create" Scenario.in_org1 6
       Scenario.regranted).1 = Returned true.
Proof. vm_compute. repeat split. Qed.

(** ** Revoking when the lookup is unambiguous *)

Lemma elem_of_select (st : Store) (userId : string) (context : Context)
    (key : nat) (r : UserPermission) :
  (key, r) ∈ select_user_permissions st userId context ↔
  user_permissions st !! key = Some r ∧ matches_context userId context r = true.
Proof.
  unfold select_user_permissions.
  rewrite list_elem_of_filter, elem_of_map_to_list. simpl. tauto.
Qed.

Lemma NoDup_select (st : Store) (userId : string) (context : Context) :
  NoDup (select_user_permissions st userId context).
Proof. apply NoDup_filter, NoDup_map_to_list. Qed.

Lemma list_is_singleton {A : Type} (l : list A) (x : A) :
  NoDup l → x ∈ l → (∀ y, y ∈ l → y = x) → l = [x].
Proof.
  intros Hnodup Hin Hall. destruct l as [|a [|b rest]].
  - by apply elem_of_nil in Hin.
  - f_equal. apply Hall. left.
  - exfalso. apply NoDup_cons in Hnodup as [Ha _]. apply Ha.
    rewrite (Hall a), <-(Hall b); [left | right; left | left].
Qed.

Lemma select_is_singleton (st : Store) (userId : string) (context : Context)
    (key : nat) (r : UserPermission) :
  user_permissions st !! key = Some r →
  matches_context userId context r = true →
  (∀ key' r', user_permissions st !! key' = Some r' →
              matches_context userId context r' = true → key' = key) →
  select_user_permissions st userId context = [(key, r)].
Proof.
  intros Hr Hmatch Honly.
  apply list_is_singleton; [apply NoDup_select | by apply elem_of_select |].
  intros [key' r'] [Hr' Hmatch']%elem_of_select.
  assert (key' = key) as -> by eauto. congruence.
Qed.

(** The row [updateCustomPermission] inserts is found by the lookup of the
    context it was inserted for. *)
Lemma inserted_row_matches (userId : string) (context : Context)
    (s : option Source) (t : option string) (c e : option doc) (now : nat) :
  matches_context userId context
    {| user_id := userId;
       up_organization_id := truthy (orgId context);
       up_team_id := truthy (teamId context);
       source := s; template_id := t; custom_permissions := c;
       effective_permissions := e; updated_at := now |} = true.
Proof.
  unfold matches_context. simpl. rewrite bool_decide_eq_true_2 by done.
  destruct (truthy (orgId context)), (truthy (teamId context));
    rewrite ?bool_decide_eq_true_2; done.
Qed.

(** Unfolds the sequencing only. *)
Ltac step_eff :=
  unfold mbind, Eff_bind, mret, Eff_ret, read, write, throw;
  cbv beta iota zeta.

(** ** Writing a path *)

(** A two-segment path without [__proto__], with nothing added to
    [Object.prototype]: the category is entered, or created when it is
    missing or not an object, and the action is set in it; a category that
    holds [null] makes the final assignment throw. *)
Lemma set_path_two (current : doc) (category action : string) (value : bool) :
  category ≠ "__proto__" → action ≠ "__proto__" →
  set_path current ∅ [category; action] value
  = (match current !! category with
     | Some VNull => None
     | Some (VObj actions) =>
         Some (<[category := VObj (<[action := VBool value]> actions)]> current)
     | _ => Some (<[category := VObj {[ action := VBool value ]}]> current)
     end, ∅).
Proof.
  intros Hcategory Haction. unfold set_path. simpl.
  destruct (current !! category) as [[| | | |actions]|] eqn:Hcurrent; simpl.
  all: rewrite ?bool_decide_eq_false_2 by done; simpl.
  all: rewrite ?lookup_empty; simpl.
  all: rewrite ?Hcurrent, ?lookup_insert_eq; simpl.
  all: rewrite ?lookup_empty; simpl.
  all: rewrite ?bool_decide_eq_false_2 by done; simpl.
  all: try done.
  all: try (by rewrite insert_insert_eq).
  by destruct (actions !! action).
Qed.

(** The loop of [updateCustomPermission] on some paths, started at empty
    custom overrides unless said otherwise: the custom overrides it leaves
    ([None] for the [TypeError]) and what it leaves in
    [Object.prototype]. *)
Example set_path_examples :
  set_path ∅ ∅ (split "tasks.create") false
  = (Some {[ "tasks" := VObj {[ "create" := VBool false ]} ]}, ∅)
  ∧ set_path ∅ ∅ (split "toString.x") true
    = (Some {[ "toString" := VObj {[ "x" := VBool true ]} ]}, ∅)
  ∧ set_path ∅ ∅ (split "__proto__") true = (Some ∅, ∅)
  ∧ set_path ∅ ∅ (split "__proto__.toString") true
    = (Some ∅, {[ "toString" := VBool true ]})
  ∧ set_path ∅ ∅ (split "a.__proto__.b") true
    = (Some {[ "a" := VObj ∅ ]}, {[ "b" := VBool true ]})
  ∧ set_path ∅ ∅ (split "__proto__.a.b.a.c") true
    = (Some ∅, {[ "a" := VObj {[ "b" := VObj ∅; "c" := VBool true ]} ]})
  ∧ set_path ∅ ∅ (split "__proto__.__proto__.x") true = (None, ∅)
  ∧ set_path ∅ ∅ (split "__proto__.a.__proto__.__proto__.x") true
    = (None, {[ "a" := VObj ∅ ]})
  ∧ set_path {[ "tasks" := VNull ]} ∅ (split "tasks.create") true = (None, ∅)
  ∧ set_path ∅ {[ "unknown" := VObj {[ "path" := VBool true ]} ]}
             (split "unknown.other") true
    = (Some ∅,
       {[ "unknown" := VObj {[ "path" := VBool true; "other" := VBool true ]} ]})
  ∧ set_path ∅ {[ "flag" := VBool true ]} (split "flag.x") false
    = (Some {[ "flag" := VObj {[ "x" := VBool false ]} ]},
       {[ "flag" := VBool true ]}).
Proof. repeat split; vm_compute; reflexivity. Qed.

(** A two-segment path writes its leaf and keeps every other leaf. *)
Lemma set_path_leaf (current : doc) (category action : string) (value : bool)
    (custom' : doc) :
  category ≠ "__proto__" → action ≠ "__proto__" →
  (set_path current ∅ [category; action] value).1 = Some custom' →
  leaf custom' category action = Some (VBool value)
  ∧ ∀ category' action' v,
      (category', action') ≠ (category, action) →
      leaf current category' action' = Some v →
      leaf custom' category' action' = Some v.
Proof.
  intros Hcategory Haction. rewrite set_path_two by done. unfold leaf. simpl.
  assert (∀ actions : doc,
    <[category := VObj (<[action := VBool value]> actions)]> current = custom' →
    (current !! category = Some (VObj actions)
     ∨ ∀ m, current !! category ≠ Some (VObj m)) →
    match custom' !! category with
    | Some (VObj m) => m !! action
    | _ => None
    end = Some (VBool value)
    ∧ ∀ category' action' v,
        (category', action') ≠ (category, action) →
        match current !! category' with
        | Some (VObj m) => m !! action'
        | _ => None
        end = Some v →
        match custom' !! category' with
        | Some (VObj m) => m !! action'
        | _ => None
        end = Some v) as Hgeneral.
  { intros actions <- Hactions. rewrite lookup_insert_eq. split.
    - apply lookup_insert_eq.
    - intros category' action' v Hne.
      destruct (decide (category' = category)) as [->|Hcat].
      + rewrite lookup_insert_eq.
        destruct Hactions as [->|Hnone].
        * rewrite lookup_insert_ne by congruence. done.
        * destruct (current !! category) as [[| | | |m]|]; try done.
          by destruct (Hnone m).
      + by rewrite lookup_insert_ne. }
  destruct (current !! category) as [[| | | |actions]|] eqn:Hcurrent;
    try done; simpl; intros [= Heq]; apply (Hgeneral _ Heq); auto;
    right; intros m; congruence.
Qed.

Lemma set_object_prototype_same (st : Store) (proto : doc) :
  object_prototype st = proto → set_object_prototype (λ _, proto) st = st.
Proof. intros <-. by destruct st. Qed.

(** The schema accepts the row that [updateCustomPermission] inserts when
    no row answers the lookup, provided the user, the organisation and the
    team of the context exist. *)
Lemma accepts_new_assignment (st : Store) (userId : string) (context : Context)
    (s : option Source) (c e : option doc) (now : nat) :
  select_user_permissions st userId context = [] →
  userId ∈ dom (users st) →
  references (truthy (orgId context)) (organizations st) = true →
  references (truthy (teamId context)) (teams st) = true →
  accepts_user_permission st
    {| user_id := userId;
       up_organization_id := truthy (orgId context);
       up_team_id := truthy (teamId context);
       source := s; template_id := None; custom_permissions := c;
       effective_permissions := e; updated_at := now |} = true.
Proof.
  intros Hselect Huser Horg Hteam. unfold accepts_user_permission. simpl.
  rewrite bool_decide_eq_true_2, Horg, Hteam by done. simpl.
  destruct (truthy (orgId context)) as [o|] eqn:Ho; [|done].
  destruct (truthy (teamId context)) as [t|] eqn:Ht; [|done].
  apply forallb_forall. intros [key r] Hin%list_elem_of_In.
  apply elem_of_map_to_list in Hin.
  apply negb_true_iff, not_true_is_false. simpl.
  rewrite !andb_true_iff, !bool_decide_eq_true. intros [[Hu Horg'] Hteam'].
  assert ((key, r) ∈ select_user_permissions st userId context) as Hhere.
  { apply elem_of_select. split; [done|]. unfold matches_context.
    rewrite Ho, Ht, !bool_decide_eq_true_2; done. }
  rewrite Hselect in Hhere. by apply elem_of_nil in Hhere.
Qed.

(** ** Revoking when the lookup is unambiguous *)

(** When at most one row answers the lookup, nothing has been added to
    [Object.prototype], the path is [category.action] without [__proto__],
    and the organisation and the team of the context exist,
    [updateCustomPermission] leaves exactly one row for the lookup: it
    holds the extended custom overrides and an effective document that has
    them merged on top. *)
Lemma updateCustomPermission_unambiguous (st : Store)
    (userId permission category action : string) (value : bool)
    (context : Context) (now : nat) (user : User) (custom' : doc) :
  getUser userId st = Some user →
  (List.length (select_user_permissions st userId context) ≤ 1)%nat →
  object_prototype st = ∅ →
  references (truthy (orgId context)) (organizations st) = true →
  references (truthy (teamId context)) (teams st) = true →
  split permission = [category; action] →
  category ≠ "__proto__" → action ≠ "__proto__" →
  (set_path (default ∅ (single (select_user_permissions st userId context)
                        ≫= λ kr, custom_permissions kr.2))
            ∅ [category; action] value).1 = Some custom' →
  ∃ key r' st',
    updateCustomPermission userId permission value context now st
      = (Returned (), st')
    ∧ users st' = users st
    ∧ organizations st' = organizations st
    ∧ teams st' = teams st
    ∧ object_prototype st' = ∅
    ∧ select_user_permissions st' userId context = [(key, r')]
    ∧ custom_permissions r' = Some custom'
    ∧ ∃ base, effective_permissions r' = Some (mergePermissions ∅ base custom').
Proof.
  intros Huser Hone Hproto Horg Hteam Hsplit Hcategory Haction Hpath.
  assert (userId ∈ dom (users st)) as Hdom
    by by apply getUser_id in Huser as [_ ?].
  unfold updateCustomPermission. step_eff.
  match goal with
  | |- context [set_path ?c ?p ?parts value] =>
      assert (set_path c p parts value = (Some custom', ∅)) as Hset
  end.
  { rewrite Hproto, Hsplit. rewrite set_path_two in Hpath |- * by done.
    f_equal. exact Hpath. }
  clear Hpath. rewrite Hset.
  cbv beta iota zeta. simpl. rewrite set_object_prototype_same by done.
  rewrite Huser.
  destruct (select_user_permissions st userId context)
    as [|[key r] [|second rest]] eqn:Hselect; simpl in *; [| |lia].
  - rewrite accepts_new_assignment by done.
    eexists _, _, _. split; [done|]. repeat (split; [done|]). split.
    { apply select_is_singleton; simpl.
      - apply lookup_insert_eq.
      - apply inserted_row_matches.
      - intros key' r'. rewrite lookup_insert. case_decide; [done|].
        intros Hr' Hmatch'.
        assert ((key', r') ∈ select_user_permissions st userId context)
          as Hin by by apply elem_of_select.
        rewrite Hselect in Hin. by apply elem_of_nil in Hin. }
    simpl. rewrite Hproto. eauto.
  - assert ((key, r) ∈ select_user_permissions st userId context)
      as [Hr Hmatch]%elem_of_select by (rewrite Hselect; left).
    eexists _, _, _. split; [done|]. repeat (split; [done|]). split.
    { apply select_is_singleton; simpl.
      - by rewrite lookup_alter_eq, Hr.
      - done.
      - intros key' r'. rewrite lookup_alter. case_decide; [done|].
        intros Hr' Hmatch'.
        assert ((key', r') ∈ select_user_permissions st userId context)
          as Hin by by apply elem_of_select.
        rewrite Hselect in Hin.
        by apply list_elem_of_singleton in Hin as [= ->]. }
    simpl. rewrite Hproto. eauto.
Qed.

(** A [null] in the place of the category makes [updateCustomPermission]
    throw before it writes to the database. *)
Lemma updateCustomPermission_type_error (st : Store)
    (userId permission category action : string) (value : bool)
    (context : Context) (now : nat) :
  object_prototype st = ∅ →
  split permission = [category; action] →
  category ≠ "__proto__" → action ≠ "__proto__" →
  (set_path (default ∅ (single (select_user_permissions st userId context)
                        ≫= λ kr, custom_permissions kr.2))
            ∅ [category; action] value).1 = None →
  updateCustomPermission userId permission value context now st
  = (Thrown "TypeError", st).
Proof.
  intros Hproto Hsplit Hcategory Haction Hpath.
  unfold updateCustomPermission. step_eff.
  match goal with
  | |- context [set_path ?c ?p ?parts value] =>
      assert (set_path c p parts value = (None, ∅)) as Hset
  end.
  { rewrite Hproto, Hsplit. rewrite set_path_two in Hpath |- * by done.
    f_equal. exact Hpath. }
  rewrite Hset.
  cbv beta iota zeta. simpl. by rewrite set_object_prototype_same.
Qed.

Lemma resolve_leaf (d : doc) (category action : string) :
  resolve (VObj d) [category; action] = leaf d category action.
Proof.
  unfold leaf. simpl. destruct (d !! category) as [[| | | |m]|]; try done.
  by destruct (m !! action).
Qed.

(** With a single assignment, the check reads its cached document. *)
Lemma checkPermission_cached (st : Store) (userId permission : string)
    (context : Context) (now : nat) (user : User) (key : nat)
    (r : UserPermission) (cached : doc) :
  getUser userId st = Some user →
  select_user_permissions st userId context = [(key, r)] →
  effective_permissions r = Some cached →
  checkPermission userId permission context now st
  = (Returned (walk (object_prototype st) (Plain (VObj cached))
                    (split permission)), st).
Proof.
  intros Huser Hselect Hcached.
  unfold checkPermission, getEffectivePermissions. run_eff.
  by rewrite Huser, Hselect; simpl; rewrite Hcached.
Qed.

Lemma denied_when_false (cached : doc) :
  leaf cached "tasks" "create" = Some (VBool false) →
  walk ∅ (Plain (VObj cached)) (split "tasks.create") = false.
Proof.
  intros Hleaf. apply not_true_is_false. rewrite walk_resolve.
  change (split "tasks.create") with ["tasks"; "create"].
  rewrite resolve_leaf, Hleaf. congruence.
Qed.

(** X4. The revoke-persists law where it holds.  Suppose that at most one row
    of the user answers the lookup of the context, that nothing has been
    added to [Object.prototype], and that the organisation and the team of
    the context exist.  Then [tasks.create] is denied after the revoke,
    also when the role default grants it, and is still denied after a later
    grant of any other [category.action] without [__proto__] in that
    context. *)
Theorem revoke_persists_unambiguous (st st1 : Store) (userId : string)
    (context : Context) (user : User) (now1 now2 now : nat)
    (permission category action : string) :
  getUser userId st = Some user →
  (List.length (select_user_permissions st userId context) ≤ 1)%nat →
  object_prototype st = ∅ →
  references (truthy (orgId context)) (organizations st) = true →
  references (truthy (teamId context)) (teams st) = true →
  split permission = [category; action] →
  category ≠ "__proto__" → action ≠ "__proto__" →
  (category, action) ≠ ("tasks", "create") →
  revokePermission userId "tasks.create" context now1 st
    = (Returned (), st1) →
  (checkPermission userId "tasks.create" context now st1).1 = Returned false
  ∧ (checkPermission userId "tasks.create" context now
       (grantPermission userId permission context now2 st1).2).1
    = Returned false.
Proof.
  intros Huser Hone Hproto Horg Hteam Hsplit Hcategory Haction Hother Hrevoke.
  unfold revokePermission in Hrevoke.
  destruct (set_path
              (default ∅ (single (select_user_permissions st userId context)
                          ≫= λ kr, custom_permissions kr.2))
              ∅ ["tasks"; "create"] false).1 as [custom1|] eqn:Hpath1.
  2: { by rewrite (updateCustomPermission_type_error _ _ _ "tasks" "create")
         in Hrevoke. }
  destruct (updateCustomPermission_unambiguous st userId "tasks.create"
              "tasks" "create" false context now1 user custom1)
    as (key1 & r1 & st1' & Hrun & Husers & Horgs1 & Hteams1 & Hproto1
        & Hselect1 & Hcustom1 & base1 & Heff1); try done.
  rewrite Hrun in Hrevoke. injection Hrevoke as <-.
  assert (getUser userId st1' = Some user) as Huser1
    by (unfold getUser; by rewrite Husers).
  apply set_path_leaf in Hpath1 as [Hfalse _]; [|done..].
  split.
  - erewrite checkPermission_cached by done. simpl. f_equal. rewrite Hproto1.
    apply denied_when_false. by apply leaf_merge_override.
  - unfold grantPermission.
    destruct (set_path
                (default ∅ (single (select_user_permissions st1' userId context)
                            ≫= λ kr, custom_permissions kr.2))
                ∅ [category; action] true).1 as [custom2|] eqn:Hpath2.
    + destruct (updateCustomPermission_unambiguous st1' userId permission
                  category action true context now2 user custom2) as
        (key2 & r2 & st2 & -> & Husers2 & _ & _ & Hproto2 & Hselect2
         & Hcustom2 & base2 & Heff2);
        [done | by rewrite Hselect1 | done | by rewrite Horgs1
        | by rewrite Hteams1 | done..|].
      simpl. erewrite checkPermission_cached;
        [| unfold getUser; by rewrite Husers2 | done | done].
      simpl. f_equal. rewrite Hproto2.
      apply denied_when_false, leaf_merge_override.
      rewrite Hselect1 in Hpath2. simpl in Hpath2.
      rewrite Hcustom1 in Hpath2. simpl in Hpath2.
      by apply (set_path_leaf _ _ _ _ _ Hcategory Haction Hpath2).
    + rewrite (updateCustomPermission_type_error _ _ _ category action)
        by done.
      simpl. erewrite checkPermission_cached by done. simpl. f_equal.
      rewrite Hproto1. apply denied_when_false. by apply leaf_merge_override.
Qed.

Lemma revoke_persists_unambiguous_witness :
  leaf member_permissions "tasks" "create" = Some (VBool true)
  ∧ (checkPermission "u1" "tasks.create" Scenario.in_org1 7
       Scenario.member_revoked).1 = Returned false
  ∧ (checkPermission "u1" "tasks.create" Scenario.in_org1 7
       (grantPermission "u1" "leaves.request" Scenario.in_org1 2
          Scenario.member_revoked).2).1 = Returned false.
Proof.
  split; [vm_compute; reflexivity|].
  apply (revoke_persists_unambiguous Scenario.member_with_template
           Scenario.member_revoked "u1" Scenario.in_org1
           {| id := "u1"; role := member; organization_id := "org1";
              active := true |}
           1 2 7 "leaves.request" "leaves" "request").
  - vm_compute. reflexivity.
  - vm_compute. lia.
  - vm_compute. reflexivity.
  - vm_compute. reflexivity.
  - vm_compute. reflexivity.
  - vm_compute. reflexivity.
  - done.
  - done.
  - congruence.
  - vm_compute. reflexivity.
Defined.

(** X10. The result of the insert in [updateCustomPermission] is not looked
    at.  When no row answers the lookup and the organisation or the team of
    the context does not exist, the database refuses the new row, and the
    grant or revoke of a [category.action] (without [__proto__], nothing
    added to [Object.prototype]) for an existing user returns normally
    without having written anything. *)
Theorem updateCustomPermission_silently_dropped (st : Store)
    (userId permission category action : string) (value : bool)
    (context : Context) (now : nat) (user : User) :
  getUser userId st = Some user →
  select_user_permissions st userId context = [] →
  object_prototype st = ∅ →
  split permission = [category; action] →
  category ≠ "__proto__" → action ≠ "__proto__" →
  references (truthy (orgId context)) (organizations st) = false
  ∨ references (truthy (teamId context)) (teams st) = false →
  updateCustomPermission userId permission value context now st
  = (Returned (), st).
Proof.
  intros Huser Hselect Hproto Hsplit Hcategory Haction Hmissing.
  unfold updateCustomPermission. step_eff.
  rewrite Hproto, Hsplit, set_path_two by done.
  rewrite Hselect. simpl. rewrite lookup_empty. simpl.
  rewrite set_object_prototype_same by done. rewrite Huser.
  unfold accepts_user_permission. simpl.
  by destruct Hmissing as [-> | ->]; rewrite ?andb_false_r.
Qed.

Lemma updateCustomPermission_silently_dropped_witness :
  updateCustomPermission "u1" "tasks.create" false
    {| orgId := Some "org2"; teamId := None |} 1 Scenario.member_with_template
  = (Returned (), Scenario.member_with_template)
  ∧ (checkPermission "u1" "tasks.create"
       {| orgId := Some "org2"; teamId := None |} 2
       Scenario.member_with_template).1 = Returned true.
Proof.
  split; [|vm_compute; reflexivity].
  apply (updateCustomPermission_silently_dropped Scenario.member_with_template
           "u1" "tasks.create" "tasks" "create" false
           {| orgId := Some "org2"; teamId := None |} 1
           {| id := "u1"; role := member; organization_id := "org1";
              active := true |}).
  all: try done; try (vm_compute; reflexivity).
  left. vm_compute. reflexivity.
Defined.

(** The lookup narrows by [team_id] only when the context names a team: a
    request for the organisation is answered by a row of one of its teams. *)
Example lookup_ignores_absent_team :
  (λ kr, up_team_id kr.2)
    <$> select_user_permissions Scenario.one_team_row "u1" Scenario.in_org1
  = [Some "team-a"].
Proof. vm_compute. reflexivity. Qed.
(** ** Deactivated users *)

Lemma getUser_deactivated (st : Store) (userId x : string) :
  getUser x (deactivateUser userId st).2
  = if bool_decide (x = userId)
    then (λ u, {| id := id u; role := role u;
                  organization_id := organization_id u; active := false |})
           <$> getUser x st
    else getUser x st.
Proof.
  unfold getUser, deactivateUser. run_eff. case_bool_decide as Hx.
  - subst x. rewrite lookup_alter_eq. by destruct (users st !! userId).
  - by rewrite lookup_alter_ne.
Qed.

(** X13. A deactivated user is no longer a direct report of anyone: after
    [deactivateUser], [getDirectReports] lists, for every manager and team,
    the users it listed before except the deactivated one, in the same
    order.  No row of the management table is touched. *)
Theorem deactivateUser_hides_report (st : Store) (userId managerId : string)
    (teamId : option string) :
  management_hierarchy (deactivateUser userId st).2 = management_hierarchy st
  ∧ getDirectReports managerId teamId (deactivateUser userId st).2
    = filter (λ u, id u ≠ userId) (getDirectReports managerId teamId st).
Proof.
  split; [done|]. unfold getDirectReports.
  change (management_hierarchy (deactivateUser userId st).2)
    with (management_hierarchy st).
  pose proof (getUser_deactivated st userId) as Hget.
  remember (deactivateUser userId st).2 as st' eqn:Hst'. clear Hst'.
  unfold omap.
  induction (filter _ (management_hierarchy st)) as [|e data IH]; [done|].
  simpl. rewrite Hget.
  destruct (getUser (manages_user_id e) st) as [u|] eqn:Hu.
  - destruct (getUser_id _ _ _ Hu) as [Hid _].
    case_bool_decide as Hx; simpl.
    + rewrite filter_cons_False by (simpl; congruence). rewrite IH.
      destruct (active u) eqn:Hactive.
      * rewrite (filter_cons_True _ u) by done.
        rewrite filter_cons_False; [done|]. intros Hne. apply Hne. congruence.
      * by rewrite (filter_cons_False _ u) by congruence.
    + destruct (active u) eqn:Hactive.
      * rewrite !(filter_cons_True _ u) by (done || congruence).
        by rewrite IH.
      * rewrite !(filter_cons_False _ u) by congruence. done.
  - case_bool_decide; simpl; apply IH.
Qed.

(** X14. [activateUser] undoes [deactivateUser]: for a user who is active,
    or for an id that no user has, deactivating and then activating gives
    the state back, and neither call throws. *)
Theorem activateUser_deactivateUser (st : Store) (userId : string) :
  (∀ r, users st !! userId = Some r → row_active r = true) →
  (deactivateUser userId st).1 = Returned ()
  ∧ activateUser userId (deactivateUser userId st).2 = (Returned (), st).
Proof.
  intros Hactive. split; [done|]. unfold activateUser, deactivateUser.
  run_eff. f_equal. destruct st as [orgs us ts tpls ups rows proto].
  unfold set_users. simpl in *. f_equal. apply map_eq. intros x.
  destruct (decide (x = userId)) as [->|Hne].
  - rewrite !lookup_alter_eq.
    destruct (us !! userId) as [r|] eqn:Hr; [|done]. simpl.
    specialize (Hactive r eq_refl). destruct r. simpl in *. by subst.
  - by rewrite !lookup_alter_ne.
Qed.

Lemma activateUser_deactivateUser_witness :
  (deactivateUser "B" Scenario.chain_AB_BC).1 = Returned ()
  ∧ activateUser "B" (deactivateUser "B" Scenario.chain_AB_BC).2
    = (Returned (), Scenario.chain_AB_BC).
Proof.
  apply activateUser_deactivateUser. intros r Hr.
  vm_compute in Hr. by injection Hr as <-.
Defined.
